(** * gowave: playback control loop and capture pipeline

    A shallow embedding of the two Go files of the repository:
    the recorder ([record.go], function [runRecord]) and the player
    ([main.go], functions [initialModel], [Update], [View], [runPlayer]).

    Go values are modelled as follows.
    - [int] is [Z]; where the program does arithmetic that can leave the
      64-bit range the wrap-around is written out ([int_wrap]).
    - [[]byte] is [list byte]; [int16] and [uint16] are [Z] with their
      conversions written out.
    - [float64] is Rocq's primitive binary64 [float].
    - a channel is a record of its capacity, its buffer and the senders
      parked on it (module [GoChan]).
    - the shared heap object [*audioState] is the [audioState] record that
      is threaded through [Update] and [View] in a small state monad which
      also logs every access to the shared stream.
    - a run-time panic is [None] or an explicit [Crashed] state. *)

From Stdlib Require Import Strings.String Strings.Ascii.
From Stdlib Require Import ZArith List Sorted Lia Bool PrimFloat Uint63.
From Stdlib Require Strings.Byte.
From stdpp Require Import base tactics option list.

Import ListNotations.
Local Open Scope Z_scope.
Set Warnings "-register-all".

Local Infix "+++" := String.append (at level 60, right associativity).

(** Go's ["\n"] and ["\033"]. *)
Definition nl : string := String (ascii_of_nat 10) EmptyString.
Definition esc : string := String (ascii_of_nat 27) EmptyString.

(* ===================================================================== *)
(** ** Go channels *)
(* ===================================================================== *)

Module GoChan.

Section Chan.
Context {A : Type}.

(** [make(chan A, cap)]: [buf] holds the values sent and not yet
    received, oldest first; [parked] holds the values of the senders
    that are blocked in a send, oldest first. *)
Record chan : Type := Chan {
  cap : nat;
  buf : list A;
  parked : list A
}.

Definition make (n : nat) : chan := Chan n [] [].

Definition full (c : chan) : bool :=
  bool_decide (cap c <= length (buf c))%nat.

(** [select { case c <- v: default: }] when no receiver is waiting:
    the value goes into the buffer if there is room, otherwise the
    default branch runs and the channel is untouched.  The boolean
    tells which branch ran. *)
Definition try_send (c : chan) (v : A) : chan * bool :=
  if full c then (c, false)
  else (Chan (cap c) (buf c ++ [v]) (parked c), true).

(** [c <- v] when no receiver is waiting: buffered if there is room,
    otherwise the sender parks.  The boolean is [true] when the
    sender goes on and [false] when it is blocked. *)
Definition send (c : chan) (v : A) : chan * bool :=
  if full c then (Chan (cap c) (buf c) (parked c ++ [v]), false)
  else (Chan (cap c) (buf c ++ [v]) (parked c), true).

(** [<-c] when it is ready: the oldest buffered value is taken and
    the oldest parked sender, if any, moves its value into the freed
    slot; on an empty buffer the value is taken from the oldest
    parked sender directly (the rendezvous of an unbuffered
    channel).  [None] when the receive is not ready. *)
Definition recv (c : chan) : option (A * chan) :=
  match buf c, parked c with
  | x :: b, [] => Some (x, Chan (cap c) b [])
  | x :: b, y :: p => Some (x, Chan (cap c) (b ++ [y]) p)
  | [], y :: p => Some (y, Chan (cap c) [] p)
  | [], [] => None
  end.

End Chan.

Arguments chan : clear implicits.

End GoChan.

Import GoChan.

(* ===================================================================== *)
(** ** Integers, bytes and floats *)
(* ===================================================================== *)

(** Go's [int] on the 64-bit targets of the program. *)
Definition int_wrap (z : Z) : Z := (z + 2 ^ 63) mod 2 ^ 64 - 2 ^ 63.

Definition byte_val (b : Byte.byte) : Z := Z.of_N (Byte.to_N b).

(** The conversion [int16(u)] of a [uint16]: the same 16 bits read as a
    two's complement number. *)
Definition int16 (u : Z) : Z := (u + 2 ^ 15) mod 2 ^ 16 - 2 ^ 15.

(** [data[lo:hi]]; [None] stands for the run-time panic of a slice
    expression out of range. *)
Definition slice {A} (data : list A) (lo hi : nat) : option (list A) :=
  if bool_decide (lo <= hi <= length data)%nat
  then Some (take (hi - lo) (drop lo data))
  else None.

(** The builtin [copy(dst, src)]: the first [min(len(dst), len(src))]
    elements of [dst] are overwritten. *)
Definition copy {A} (dst src : list A) : list A :=
  take (length dst) src ++ drop (length src) dst.

(** [binary.LittleEndian.Uint16(b)] is [uint16(b[0]) | uint16(b[1])<<8];
    it panics on fewer than two bytes. *)
Definition LittleEndian_Uint16 (b : list Byte.byte) : option Z :=
  match b with
  | b0 :: b1 :: _ => Some (Z.lor (byte_val b0) (Z.shiftl (byte_val b1) 8))
  | _ => None
  end.

(** The conversion [float64(n)] of an [int]: the nearest binary64.  The
    primitive conversion takes a 63-bit natural number, so the sign is
    split off and the one [int] whose opposite is not an [int] is
    written as the float it is. *)
Definition float64_of_int (n : Z) : float :=
  if n =? - 2 ^ 63 then PrimFloat.opp (PrimFloat.mul 2 (PrimFloat.of_uint63 (Uint63.of_Z (2 ^ 62))))
  else if n <? 0 then PrimFloat.opp (PrimFloat.of_uint63 (Uint63.of_Z (- n)))
  else PrimFloat.of_uint63 (Uint63.of_Z n).

(* ===================================================================== *)
(** ** What the process does to the outside *)
(* ===================================================================== *)

Inductive effect : Type :=
| Stdout (s : string)              (* fmt.Print*, on standard output *)
| Stderr (s : string)              (* written to standard error *)
| Exit (code : Z)                  (* the process ends with this status *)
| StartUI                          (* tea.NewProgram(m).Run() *)
| ContextUninit                    (* ctx.Uninit(); ctx.Free() *)
| DeviceStart                      (* device.Start() *)
| DeviceUninit                     (* device.Uninit() *)
| EncoderWrite (intData : list Z)  (* encoder.Write(buf) *)
| EncoderClose                     (* encoder.Close() *)
| FileClose                        (* f.Close() / outFile.Close() *)
| StreamerClose.                   (* streamer.Close() *)

(** What the Go run time does with a panic that nothing recovers: the
    deferred calls have run, the value is reported on standard error
    (the goroutine dump that follows is left out) and the process ends
    with status 2. *)
Definition runtime_panic (v : string) : list effect :=
  [Stderr ("panic: " +++ v); Exit 2].


(* ===================================================================== *)
(** ** record.go *)
(* ===================================================================== *)

Module Record.

Definition SampleRate : Z := 44100.
Definition Channels : Z := 1.
Definition BitDepth : Z := 16.
Definition OutputName : string := "output.wav".

(** Capacity of [audioChan := make(chan []byte, 1024)]. *)
Definition audioChan_cap : nat := 1024.

(** Capacity of [sigChan := make(chan os.Signal, 1)]. *)
Definition sigChan_cap : nat := 1.

(** The two signals [signal.Notify(sigChan, os.Interrupt, syscall.SIGTERM)]
    relays. *)
Inductive Signal : Type := Interrupt | SIGTERM.

(** The loop

      for i := 0; i < len(intData); i++ {
        val := int16(binary.LittleEndian.Uint16(data[i*2 : i*2+2]))
        intData[i] = int(val)
      }

    with [todo] = [len(intData) - i] iterations left.  [int(val)] keeps
    the value: every [int16] is an [int]. *)
Fixpoint convert_loop (data : list Byte.byte) (todo : nat) (i : nat)
    (intData : list Z) : option (list Z) :=
  match todo with
  | O => Some intData
  | S todo' =>
      match slice data (i * 2) (i * 2 + 2) with
      | None => None
      | Some s =>
          match LittleEndian_Uint16 s with
          | None => None
          | Some u =>
              let val := int16 u in
              convert_loop data todo' (S i) (<[i := val]> intData)
          end
      end
  end.

(** [intData := make([]int, len(data)/2)] followed by the loop. *)
Definition to_intData (data : list Byte.byte) : option (list Z) :=
  let n := (length data / 2)%nat in
  convert_loop data n 0 (replicate n 0).

(** The device callback [Data]: the delivered buffer is copied and the
    copy is offered to the queue without blocking. *)
Definition Data (audioChan : chan (list Byte.byte))
    (pInputSamples : list Byte.byte) : chan (list Byte.byte) :=
  let dataCopy := replicate (length pInputSamples) Byte.x00 in
  let dataCopy := copy dataCopy pInputSamples in
  fst (try_send audioChan dataCopy).

(** Where the main goroutine stands. *)
Inductive phase : Type :=
| Looping          (* in the [for { select { ... } }] *)
| LeftLoop         (* after [break Loop], before [device.Uninit()] *)
| DeviceStopped    (* after [device.Uninit()], before [encoder.Close()] *)
| Done             (* [runRecord] has returned *)
| Crashed.         (* a run-time panic in the loop body *)

Record state : Type := State {
  audioChan : chan (list Byte.byte);
  sigChan : chan Signal;
  pc : phase;
  log : list effect            (* oldest first *)
}.

(** The state in which the loop is entered. *)
Definition entry : state :=
  State (make audioChan_cap) (make sigChan_cap) Looping [].

Section Loop.

(** The collaborators: the result of [encoder.Write] on a buffer and of
    [encoder.Close] ([None] when the error is [nil]), and the argument of
    [runRecord]. *)
Variable encoder_Write : list Z -> option string.
Variable encoder_Close : option string.
Variable outputName : string.

(** [case <-sigChan:] *)
Definition on_stop (s : state) (sc : chan Signal) : state :=
  State (audioChan s) sc LeftLoop
        (log s ++ [Stdout (nl +++ "检测到停止信号，正在保存文件..." +++ nl)]).

(** [case data := <-audioChan:] *)
Definition on_frame (s : state) (data : list Byte.byte)
    (ac : chan (list Byte.byte)) : state :=
  match to_intData data with
  | None => State ac (sigChan s) Crashed (log s)
  | Some intData =>
      let written := log s ++ [EncoderWrite intData] in
      match encoder_Write intData with
      | Some err =>
          State ac (sigChan s) Looping
                (written ++ [Stdout ("写入错误: " +++ err +++ nl)])
      | None => State ac (sigChan s) Looping written
      end
  end.

(** One turn of the [select]: the case that is ready runs; when both are
    ready Go picks one of them, which is what [pick_stop] stands for;
    when none is ready the goroutine stays blocked. *)
Definition select_turn (pick_stop : bool) (s : state) : state :=
  match recv (sigChan s), recv (audioChan s) with
  | Some (_, sc), Some (data, ac) =>
      if pick_stop then on_stop s sc else on_frame s data ac
  | Some (_, sc), None => on_stop s sc
  | None, Some (data, ac) => on_frame s data ac
  | None, None => s
  end.

(** [encoder.Close()], the last message and the deferred calls. *)
Definition finalize (s : state) : state :=
  let closed := log s ++ [EncoderClose] in
  let reported :=
    match encoder_Close with
    | Some err => closed ++ [Stdout ("关闭 WAV 编码器失败: " +++ err +++ nl)]
    | None => closed
    end in
  State (audioChan s) (sigChan s) Done
        (reported ++ [Stdout ("录音完成！已保存为 " +++ outputName +++ nl);
                      FileClose; ContextUninit]).

(** The next step of the main goroutine. *)
Definition main_step (pick_stop : bool) (s : state) : state :=
  match pc s with
  | Looping => select_turn pick_stop s
  | LeftLoop =>
      State (audioChan s) (sigChan s) DeviceStopped (log s ++ [DeviceUninit])
  | DeviceStopped => finalize s
  | Done => s
  | Crashed => s
  end.

(** The capture device runs from [device.Start()] to [device.Uninit()]. *)
Definition device_running (s : state) : bool :=
  match pc s with
  | Looping | LeftLoop => true
  | _ => false
  end.

(** What can happen next: the device thread delivers a buffer, the
    operating system delivers a signal (relayed to [sigChan] without
    blocking), or the main goroutine takes its next step. *)
Inductive event : Type :=
| HwData (pInputSamples : list Byte.byte)
| OsSignal (sig : Signal)
| Main (pick_stop : bool).

Definition step (s : state) (e : event) : state :=
  match e with
  | HwData p =>
      if device_running s
      then State (Data (audioChan s) p) (sigChan s) (pc s) (log s)
      else s
  | OsSignal sig =>
      State (audioChan s) (fst (try_send (sigChan s) sig)) (pc s) (log s)
  | Main pick_stop => main_step pick_stop s
  end.

Definition run (s : state) (sched : list event) : state :=
  fold_left step sched s.

End Loop.

(** The buffers the device delivered while it ran, in order. *)
Fixpoint produced (sched : list event) : list (list Byte.byte) :=
  match sched with
  | [] => []
  | HwData p :: sched' => p :: produced sched'
  | _ :: sched' => produced sched'
  end.

(** The buffers handed to [encoder.Write], in order. *)
Fixpoint written (l : list effect) : list (list Z) :=
  match l with
  | [] => []
  | EncoderWrite d :: l' => d :: written l'
  | _ :: l' => written l'
  end.

(** Start-up of [runRecord], up to the loop: the results of the four
    calls that can fail ([None] when the error is [nil]). *)
Record startup : Type := Startup {
  InitContext_err : option string;
  InitDevice_err : option string;
  Create_err : option string;
  Start_err : option string
}.

(** The effects of start-up and whether the loop is reached.  Every failure
    is [panic(err)]; the deferred calls registered so far run first. *)
Definition runRecord_startup (env : startup) : list effect * bool :=
  match InitContext_err env with
  | Some err => (runtime_panic err, false)
  | None =>
      match InitDevice_err env with
      | Some err => (ContextUninit :: runtime_panic err, false)
      | None =>
          match Create_err env with
          | Some err => (ContextUninit :: runtime_panic err, false)
          | None =>
              match Start_err env with
              | Some err =>
                  (FileClose :: ContextUninit :: runtime_panic err, false)
              | None =>
                  ([DeviceStart;
                    Stdout ("正在录音... 请说话 (按 Ctrl+C 停止并保存)" +++ nl)],
                   true)
              end
          end
      end
  end.

(** [func runRecord(outputName string)] as a whole: the start-up, then
    the loop and the shutdown under a schedule.  The boolean tells whether
    the function has returned to its caller; it has not while the
    recorder still runs and after a panic. *)
Definition runRecord (encoder_Write : list Z -> option string)
    (encoder_Close : option string) (outputName : string)
    (env : startup) (sched : list event) : list effect * bool :=
  let (started, ok) := runRecord_startup env in
  if ok then
    let s := run encoder_Write encoder_Close outputName entry sched in
    match pc s with
    | Done => (started ++ log s, true)
    | Crashed =>
        (started ++ log s ++ FileClose :: ContextUninit ::
           runtime_panic "runtime error: slice bounds out of range",
         false)
    | _ => (started ++ log s, false)
    end
  else (started, false).

End Record.

(* ===================================================================== *)
(** ** main.go *)
(* ===================================================================== *)

(** The libraries the player is written against, at the interface the
    program uses: the progress bar of [bubbles/progress] (its exported
    field [Width], [SetPercent], [Update], [View]), the sample clock of
    [beep] and the durations of [time]. *)
Class Library : Type := {
  progress_Model : Type;
  progress_FrameMsg : Type;
  lib_Cmd : Type;
  progress_New : progress_Model;
  progress_set_Width : progress_Model -> Z -> progress_Model;
  progress_SetPercent : progress_Model -> float -> progress_Model * lib_Cmd;
  progress_Update :
    progress_Model -> progress_FrameMsg -> progress_Model * lib_Cmd;
  progress_View : progress_Model -> string;
  SampleRate_D : Z -> Z -> Z;          (* format.SampleRate.D(n) *)
  Duration_Round : Z -> Z -> Z;        (* d.Round(m) *)
  Duration_String : Z -> string        (* the %v of a time.Duration *)
}.

Module Player.

Section WithLibrary.
Context {Lib : Library}.

Definition Millisecond : Z := 1000000.
Definition Second : Z := 1000000000.

(** [tea.Cmd] values the program returns. *)
Inductive Cmd : Type :=
| CmdNil                       (* nil *)
| Quit                         (* tea.Quit *)
| Tick (d : Z)                 (* tea.Tick(d, ...) that delivers a tickMsg *)
| FromLib (c : lib_Cmd)        (* a command made by the progress bar *)
| Batch (cs : list Cmd).       (* tea.Batch(...) *)

(** [tea.Msg] values the program tells apart; [key] is [msg.String()]. *)
Inductive Msg : Type :=
| KeyMsg (key : string)
| tickMsg
| FrameMsg (f : progress_FrameMsg)
| WindowSizeMsg (Width Height : Z)
| OtherMsg.

Definition tickCmd : Cmd := Tick (Millisecond * 100).

(** The object behind [m.audio]: [streamer] (its position and length),
    [format], [ctrl] (its flag [Paused]), [duration] and [done]. *)
Record audioState : Type := AudioState {
  streamer_Position : Z;
  streamer_Len : Z;
  format_SampleRate : Z;
  ctrl_Paused : bool;
  duration : Z;
  done : chan bool
}.

Record model : Type := Model {
  progress : progress_Model;
  filename : string;
  playing : bool;
  pct : float;
  err : option string
}.

(** Accesses of the control code to what it shares with the audio
    thread, as they happen. *)
Inductive access : Type :=
| Lock                       (* speaker.Lock() *)
| Unlock                     (* speaker.Unlock() *)
| ReadPosition               (* streamer.Position() *)
| ReadLen                    (* streamer.Len() *)
| ReadPaused                 (* ctrl.Paused read *)
| WritePaused (b : bool)     (* ctrl.Paused = b *)
| PollDone (fired : bool).   (* select { case <-done: ... default: } *)

(** Where the audio thread stands in [beep.Seq(ctrl, beep.Callback(f))]. *)
Inductive stage : Type :=
| Streaming      (* still in [ctrl] *)
| InCallback     (* in [f], blocked in [done <- true] *)
| Drained.       (* the sequence is over *)

Record heap : Type := Heap {
  audio : audioState;
  hw : stage;
  accesses : list access       (* oldest first *)
}.

(** The control code: a state monad over the heap. *)
Definition M (A : Type) : Type := heap -> A * heap.

Definition ret {A} (a : A) : M A := fun h => (a, h).

Definition bind {A B} (c : M A) (k : A -> M B) : M B :=
  fun h => let (a, h') := c h in k a h'.

Definition note (a : access) (h : heap) : heap :=
  Heap (audio h) (hw h) (accesses h ++ [a]).

Definition speaker_Lock : M unit := fun h => (tt, note Lock h).

Definition speaker_Unlock : M unit := fun h => (tt, note Unlock h).

Definition Position : M Z :=
  fun h => (streamer_Position (audio h), note ReadPosition h).

Definition Len : M Z :=
  fun h => (streamer_Len (audio h), note ReadLen h).

Definition get_Paused : M bool :=
  fun h => (ctrl_Paused (audio h), note ReadPaused h).

Definition set_Paused (b : bool) : M unit :=
  fun h =>
    let a := audio h in
    (tt, note (WritePaused b)
           (Heap (AudioState (streamer_Position a) (streamer_Len a)
                    (format_SampleRate a) b (duration a) (done a))
                 (hw h) (accesses h))).

(** [select { case <-m.audio.done: (true) default: (false) }] *)
Definition poll_done : M bool :=
  fun h =>
    let a := audio h in
    match recv (done a) with
    | Some (_, c) =>
        (true, note (PollDone true)
                 (Heap (AudioState (streamer_Position a) (streamer_Len a)
                          (format_SampleRate a) (ctrl_Paused a) (duration a) c)
                       (hw h) (accesses h)))
    | None => (false, note (PollDone false) h)
    end.

End WithLibrary.

Declare Scope go_scope.
Delimit Scope go_scope with go.
Notation "x <- c ;; k" := (bind c (fun x => k))
  (at level 100, c at next level, right associativity) : go_scope.
Notation "c ;;; k" := (bind c (fun _ => k))
  (at level 100, right associativity) : go_scope.

Section Program.
Context {Lib : Library}.
Local Open Scope go_scope.

Definition with_playing (m : model) (b : bool) : model :=
  Model (progress m) (filename m) b (pct m) (err m).

Definition with_pct (m : model) (p : float) : model :=
  Model (progress m) (filename m) (playing m) p (err m).

Definition with_progress (m : model) (p : progress_Model) : model :=
  Model p (filename m) (playing m) (pct m) (err m).

(** [func (m model) Update(msg tea.Msg) (tea.Model, tea.Cmd)] *)
Definition Update (m : model) (msg : Msg) : M (model * Cmd) :=
  match msg with
  | KeyMsg key =>
      if (String.eqb key "q" || String.eqb key "ctrl+c" || String.eqb key "esc")%bool
      then ret (m, Quit)
      else if String.eqb key " " then
        p <- get_Paused ;;
        set_Paused (negb p) ;;;
        p' <- get_Paused ;;
        ret (with_playing m (negb p'), CmdNil)
      else ret (m, CmdNil)
  | tickMsg =>
      fired <- poll_done ;;
      if fired then ret (m, Quit) else
      paused <- get_Paused ;;
      if paused then ret (m, tickCmd) else
      speaker_Lock ;;;
      position <- Position ;;
      speaker_Unlock ;;;
      length <- Len ;;
      let m := if length >? 0
               then with_pct m (PrimFloat.div (float64_of_int position)
                                              (float64_of_int length))
               else m in
      let (p, cmd) := progress_SetPercent (progress m) (pct m) in
      ret (with_progress m p, Batch [FromLib cmd; tickCmd])
  | FrameMsg f =>
      let (progressModel, cmd) := progress_Update (progress m) f in
      ret (with_progress m progressModel, FromLib cmd)
  | WindowSizeMsg Width _ =>
      let w := int_wrap (Width - 10) in
      let w := if w >? 80 then 80 else w in
      ret (with_progress m (progress_set_Width (progress m) w), CmdNil)
  | OtherMsg => ret (m, CmdNil)
  end.

(** [func (m model) View() string] *)
Definition View (m : model) : M string :=
  match err m with
  | Some e => ret ("Error: " +++ e +++ nl)
  | None =>
      let status : string :=
        if negb (playing m) then "⏸ Paused "%string else "▶ Playing"%string in
      position <- Position ;;
      fun h =>
        let a := audio h in
        let currentPos :=
          Duration_Round (SampleRate_D (format_SampleRate a) position) Second in
        let totalDur := Duration_Round (duration a) Second in
        (nl
         +++ "🎵 File: " +++ esc +++ "[1m" +++ filename m +++ esc +++ "[0m" +++ nl
         +++ "   " +++ status +++ nl +++ nl
         +++ "   " +++ progress_View (progress m) +++ nl +++ nl
         +++ "   ⏱  " +++ Duration_String currentPos +++ " / "
         +++ Duration_String totalDur +++ nl +++ nl
         +++ "   [Space] Play/Pause  [q] Quit" +++ nl +++ nl,
         h)
  end.


(** The function handed to [beep.Callback] in [initialModel]:
    [done <- true].  The boolean tells whether the send went through or
    left the audio thread parked. *)
Definition completion_callback (a : audioState) : audioState * bool :=
  let (c, went) := send (done a) true in
  (AudioState (streamer_Position a) (streamer_Len a) (format_SampleRate a)
     (ctrl_Paused a) (duration a) c,
   went).

(** What [initialModel] meets outside: the results of [os.Open],
    [wav.Decode] and [speaker.Init] ([None] when the error is [nil]) and,
    of a decoded file, its length in frames and its sample rate. *)
Record environment : Type := Environment {
  Open_err : option string;
  Decode_err : option string;
  Decode_Len : Z;
  Decode_SampleRate : Z;
  SpeakerInit_err : option string;
  Run_err : option string          (* the error of [p.Run()] *)
}.

(** [func initialModel(filename string)], which returns a pointer to the
    model or an error, with the effects of its clean-up on the failing
    paths. *)
Definition initialModel (fname : string) (env : environment)
    : (model * heap + string) * list effect :=
  match Open_err env with
  | Some e => (inr ("打开文件失败: " +++ e), [])
  | None =>
      match Decode_err env with
      | Some e => (inr ("解码 WAV 失败: " +++ e), [FileClose])
      | None =>
          match SpeakerInit_err env with
          | Some e => (inr ("初始化扬声器失败: " +++ e), [StreamerClose])
          | None =>
              let ctrl_Paused := false in
              let done := make 0 in
              let duration :=
                SampleRate_D (Decode_SampleRate env) (Decode_Len env) in
              let prog := progress_New in
              (inl (Model prog fname true 0%float None,
                    Heap (AudioState 0 (Decode_Len env) (Decode_SampleRate env)
                            ctrl_Paused duration done)
                         Streaming []),
               [])
          end
      end
  end.

(** [func runPlayer(filename string)]: what the process does. *)
Definition runPlayer (fname : string) (env : environment) : list effect :=
  match initialModel fname env with
  | (inr e, cleanup) =>
      cleanup ++ [Stdout ("Error initializing: " +++ e +++ nl); Exit 1]
  | (inl _, cleanup) =>
      cleanup ++ StartUI ::
      match Run_err env with
      | Some e =>
          [StreamerClose;
           Stdout ("Alas, there's been an error: " +++ e); Exit 1]
      | None => [StreamerClose; Exit 0]
      end
  end.

(** Modelled from the spec: the audio thread's turn on one hardware
    buffer of [n] frames, which is code of the audio library and not of
    this repository.  Section 3 (PlaybackGate): when paused the callback
    emits silence without advancing the position.  Section 4.1: the
    stream is composed as play the source, then signal done, so the
    completion function runs once, after the last frame.  A thread that
    is parked in the send goes on when its value has been received. *)
Definition hw_callback (n : Z) (h : heap) : heap :=
  let a := audio h in
  match hw h with
  | Streaming =>
      if ctrl_Paused a then h
      else if streamer_Position a <? streamer_Len a then
        Heap (AudioState (Z.min (streamer_Len a) (streamer_Position a + n))
                (streamer_Len a) (format_SampleRate a) (ctrl_Paused a)
                (duration a) (done a))
             Streaming (accesses h)
      else
        let (a', went) := completion_callback a in
        Heap a' (if went then Drained else InCallback) (accesses h)
  | InCallback =>
      match parked (done a) with
      | [] => Heap a Drained (accesses h)
      | _ => h
      end
  | Drained => h
  end.

(** The position reads of a log that happen outside
    [speaker.Lock() ... speaker.Unlock()]; [held] tells whether the lock
    is held where the log starts. *)
Fixpoint unlocked_reads (held : bool) (l : list access) : nat :=
  match l with
  | [] => 0
  | Lock :: l' => unlocked_reads true l'
  | Unlock :: l' => unlocked_reads false l'
  | ReadPosition :: l' =>
      ((if held then 0 else 1) + unlocked_reads held l')%nat
  | _ :: l' => unlocked_reads held l'
  end.

(** The control loop as the scheduler sees it: a message is handled by
    [Update], or the audio thread takes a turn. *)
Inductive turn : Type :=
| Deliver (msg : Msg)
| Hardware (n : Z).

Definition play_turn (s : model * heap) (t : turn) : model * heap :=
  match t with
  | Deliver msg =>
      let '(m', _, h') := Update (fst s) msg (snd s) in (m', h')
  | Hardware n => (fst s, hw_callback n (snd s))
  end.

Definition play (s : model * heap) (ts : list turn) : model * heap :=
  fold_left play_turn ts s.

(** [func printUsage()] *)
Definition printUsage : list effect :=
  [Stdout ("Gowave - 一个简单的命令行音频播放与录音工具" +++ nl);
   Stdout (nl +++ "用法:" +++ nl);
   Stdout ("  gowave play <file.wav>    播放 WAV 文件" +++ nl);
   Stdout ("  gowave record <file.wav>  录制音频到 WAV 文件" +++ nl);
   Stdout ("  gowave <file.wav>         播放 WAV 文件 (简写)" +++ nl);
   Stdout (nl +++ "快捷键 (播放模式):" +++ nl);
   Stdout ("  [Space]  暂停/播放" +++ nl);
   Stdout ("  [q/Esc]  退出" +++ nl)].

(** [func main()] on [os.Args = args], with what the two modes meet
    outside.  A [main] that returns ends the process with status 0. *)
Definition main (args : list string) (penv : environment)
    (renv : Record.startup) (encoder_Write : list Z -> option string)
    (encoder_Close : option string) (sched : list Record.event)
    : list effect :=
  match args with
  | [] | [_] => printUsage ++ [Exit 1]
  | _ :: command :: operands =>
      if String.eqb command "record" then
        match operands with
        | [] =>
            [Stdout ("错误: 请指定录音保存路径" +++ nl);
             Stdout ("用法: gowave record <output.wav>" +++ nl);
             Exit 1]
        | path :: _ =>
            let (out, returned) :=
              Record.runRecord encoder_Write encoder_Close path renv sched in
            if returned then out ++ [Exit 0] else out
        end
      else if String.eqb command "play" then
        match operands with
        | [] =>
            [Stdout ("错误: 请指定要播放的文件" +++ nl);
             Stdout ("用法: gowave play <input.wav>" +++ nl);
             Exit 1]
        | file :: _ => runPlayer file penv
        end
      else if (String.eqb command "-h" || String.eqb command "--help"
               || String.eqb command "help")%bool then
        printUsage ++ [Exit 0]
      else runPlayer command penv
  end.

End Program.

End Player.

(** A plain instance of the library interface, to run the program on
    examples: the bar is its width and the percentage last set, a frame
    message carries nothing and the bar's commands are numbered. *)
Definition plain_library : Library := {|
  progress_Model := Z * float;
  progress_FrameMsg := unit;
  lib_Cmd := nat;
  progress_New := (40, 0%float);
  progress_set_Width := fun p w => (w, snd p);
  progress_SetPercent := fun p x => ((fst p, x), 1%nat);
  progress_Update := fun p _ => (p, 2%nat);
  progress_View := fun _ => "[....]"%string;
  SampleRate_D := fun rate n => 1000000000 * n / rate;
  Duration_Round := fun d m => (d + m / 2) / m * m;
  Duration_String := fun _ => "0s"%string
|}.

(* ===================================================================== *)
(** ** Vocabulary of the properties *)
(* ===================================================================== *)

(** The spec's reading of a sample: the 16-bit pattern made of the low
    byte [lo] and the high byte [hi], sign-extended. *)
Definition sign_extend16 (lo hi : Byte.byte) : Z :=
  let u := byte_val lo + 256 * byte_val hi in
  if Z.testbit u 15 then u - 65536 else u.

(** What goes to standard error, and what to standard output. *)
Definition is_Stderr (e : effect) : bool :=
  match e with Stderr _ => true | _ => false end.

Definition is_Stdout (e : effect) : bool :=
  match e with Stdout _ => true | _ => false end.

(** What holds of the recorder after any schedule: the frames written
    so far ([seen], converted) followed by the frames still queued sit in
    the produced sequence at strictly increasing positions [idx]; no
    sender is parked on the queue and the queue is within its bound. *)
Definition relay_inv (s : Record.state) (prod : list (list Byte.byte)) : Prop :=
  exists (seen : list (list Byte.byte)) (idx : list nat),
    Forall2 (fun d w => Record.to_intData d = Some w)
            seen (Record.written (Record.log s)) /\
    Forall2 (fun i d => prod !! i = Some d)
            idx (seen ++ buf (Record.audioChan s)) /\
    StronglySorted lt idx /\
    parked (Record.audioChan s) = [] /\
    cap (Record.audioChan s) = Record.audioChan_cap /\
    (length (buf (Record.audioChan s)) <= Record.audioChan_cap)%nat /\
    Record.pc s <> Record.Crashed.

(** The part of a log that touches the device and the encoder. *)
Fixpoint capture_ops (l : list effect) : list effect :=
  match l with
  | [] => []
  | EncoderWrite d :: l' => EncoderWrite d :: capture_ops l'
  | DeviceUninit :: l' => DeviceUninit :: capture_ops l'
  | EncoderClose :: l' => EncoderClose :: capture_ops l'
  | _ :: l' => capture_ops l'
  end.

(** What [capture_ops] has to be in each phase: the writes, then the stop
    of the device, then the one close of the encoder. *)
Definition shutdown_order (ph : Record.phase) (ws : list (list Z)) : list effect :=
  match ph with
  | Record.Looping | Record.LeftLoop | Record.Crashed => map EncoderWrite ws
  | Record.DeviceStopped => map EncoderWrite ws ++ [DeviceUninit]
  | Record.Done => map EncoderWrite ws ++ [DeviceUninit; EncoderClose]
  end.

(** The log of a state is in shutdown order. *)
Definition ordered (s : Record.state) : Prop :=
  capture_ops (Record.log s) =
  shutdown_order (Record.pc s) (Record.written (Record.log s)).

(** One of the four calls of the recorder's start-up failed. *)
Definition recorder_startup_error (env : Record.startup) : Prop :=
  Record.InitContext_err env <> None \/ Record.InitDevice_err env <> None \/
  Record.Create_err env <> None \/ Record.Start_err env <> None.

Section PlayerVocabulary.
Import Player.

(** The completion signal has fired when a receive from [done] is ready. *)
Definition completion_fired (h : heap) : Prop :=
  recv (done (audio h)) <> None.

(** [done] is unbuffered and empty, and at most the one completion value
    is parked on it, which can only be while the audio thread is in the
    completion function. *)
Definition rendezvous (h : heap) : Prop :=
  cap (done (audio h)) = 0%nat /\
  buf (done (audio h)) = [] /\
  match hw h with
  | Streaming | Drained => parked (done (audio h)) = []
  | InCallback =>
      parked (done (audio h)) = [] \/ parked (done (audio h)) = [true]
  end.

(** Opening, decoding or the speaker failed. *)
Definition player_startup_error (env : environment) : Prop :=
  Open_err env <> None \/ Decode_err env <> None \/
  SpeakerInit_err env <> None.

End PlayerVocabulary.

(** *** Vocabulary of the further properties *)

(** The samples of a buffer, pair by pair; a last odd byte gives none. *)
Fixpoint pair_samples (data : list Byte.byte) : list Z :=
  match data with
  | lo :: hi :: rest => sign_extend16 lo hi :: pair_samples rest
  | _ => []
  end.

(** A schedule in which the operating system delivers a signal. *)
Definition signalled (sched : list Record.event) : Prop :=
  exists sig, In (Record.OsSignal sig) sched.

(** The turns of the main goroutine a recorder still needs to finish
    once a signal is pending. *)
Definition turns_left (s : Record.state) : nat :=
  match Record.pc s with
  | Record.Looping => length (buf (Record.audioChan s)) + 3
  | Record.LeftLoop => 2
  | Record.DeviceStopped => 1
  | Record.Done | Record.Crashed => 0
  end.

(** The first words of the command line that [main] does not take for a
    file to play. *)
Definition reserved (command : string) : bool :=
  (String.eqb command "record" || String.eqb command "play"
   || String.eqb command "-h" || String.eqb command "--help"
   || String.eqb command "help")%bool.

(** The keys that quit the player. *)
Definition quit_key (key : string) : bool :=
  (String.eqb key "q" || String.eqb key "ctrl+c" || String.eqb key "esc")%bool.

(** The statuses a run of the process ends with, in order. *)
Definition exit_codes (l : list effect) : list Z :=
  flat_map (fun e => match e with Exit c => [c] | _ => [] end) l.

(** The signal channel of the recorder: one slot, nobody parked. *)
Definition signal_slot (s : Record.state) : Prop :=
  cap (Record.sigChan s) = 1%nat /\
  (length (buf (Record.sigChan s)) <= 1)%nat /\
  parked (Record.sigChan s) = [].

(** The releases of a log: the device, the encoder, the file and the
    audio context. *)
Fixpoint releases (l : list effect) : list effect :=
  match l with
  | [] => []
  | DeviceUninit :: l' => DeviceUninit :: releases l'
  | EncoderClose :: l' => EncoderClose :: releases l'
  | FileClose :: l' => FileClose :: releases l'
  | ContextUninit :: l' => ContextUninit :: releases l'
  | _ :: l' => releases l'
  end.

(** A schedule in which the consumer keeps up: after every buffer of the
    device the main goroutine takes a turn. *)
Definition keeping_up (turns : list (list Byte.byte * bool))
    : list Record.event :=
  flat_map (fun t => [Record.HwData (fst t); Record.Main (snd t)]) turns.


(** *** Values to run the program on *)

(** A three-second file at 44100 Hz that opens, decodes and plays. *)
Definition three_seconds : Player.environment :=
  Player.Environment None None 132300 44100 None None.

(** The player one second into that file. *)
Definition one_second_in : Player.heap :=
  Player.Heap
    (Player.AudioState 44100 132300 44100 false 3000000000 (make 0))
    Player.Streaming [].

(** The model on screen. *)
Definition shown : Player.model (Lib := plain_library) :=
  Player.Model (Lib := plain_library) (40, 0%float) "a.wav" true 0%float None.

(** The [n]-th buffer of a device that numbers its one-sample buffers. *)
Definition numbered (n : nat) : list Byte.byte :=
  [default Byte.x00 (Byte.of_nat (n mod 256));
   default Byte.x00 (Byte.of_nat (n / 256))].

(** What [initialModel] returns for that file. *)
Definition at_start : Player.model (Lib := plain_library) * Player.heap :=
  (Player.Model (Lib := plain_library) (40, 0%float) "a.wav" true 0%float None,
   Player.Heap (Player.AudioState 0 132300 44100 false 3000000000 (make 0))
               Player.Streaming []).

(* ===================================================================== *)
(** * Properties *)
(* ===================================================================== *)

(** ** Runs *)

Example three_samples :
  Record.to_intData
    [Byte.x00; Byte.x80; Byte.xff; Byte.x7f; Byte.x34; Byte.x12; Byte.xaa]
  = Some [-32768; 32767; 4660].
Proof. reflexivity. Qed.

(** 1026 buffers into the queue of 1024: the last two are dropped, and
    the consumer then writes buffer 0 first. *)
Example overflow_drops_the_newest :
  let s := Record.run (fun _ => None) None "out.wav" Record.entry
             (map (fun n => Record.HwData (numbered n)) (seq 0 1026)) in
  buf (Record.audioChan s) = map numbered (seq 0 1024) /\
  Record.written
    (Record.log (Record.step (fun _ => None) None "out.wav" s
                   (Record.Main false))) = [[0]].
Proof. vm_compute. split; reflexivity. Qed.

(** One second into a three-second file a tick sets [pct] to a third,
    which lies between a quarter and a half. *)
Example tick_one_second_in :
  let '(m', cmd, h') :=
    Player.Update shown Player.tickMsg one_second_in in
  (PrimFloat.ltb 0.25 (Player.pct m') && PrimFloat.ltb (Player.pct m') 0.5)%bool
    = true /\
  Player.progress m' = (40, Player.pct m') /\
  Player.streamer_Position (Player.audio h') = 44100.
Proof. vm_compute. repeat split; reflexivity. Qed.

(** The source runs out, the audio thread parks in the completion
    function, the next tick quits. *)
Example playback_ends :
  let '(m', h') :=
    Player.play at_start [Player.Hardware 132300; Player.Hardware 4410] in
  Player.hw h' = Player.InCallback /\
  Player.streamer_Position (Player.audio h') = 132300 /\
  snd (fst (Player.Update m' Player.tickMsg h')) = Player.Quit.
Proof. vm_compute. repeat split; reflexivity. Qed.

(** A window of 120 columns caps the bar at 80; one of 50 gives 40. *)
Example resize_caps_width :
  fst (Player.progress (fst (fst
    (Player.Update shown (Player.WindowSizeMsg 120 40) one_second_in)))) = 80 /\
  fst (Player.progress (fst (fst
    (Player.Update shown (Player.WindowSizeMsg 50 40) one_second_in)))) = 40.
Proof. split; reflexivity. Qed.

(** ** Samples *)

Lemma byte_val_range (b : Byte.byte) : 0 <= byte_val b < 256.
Proof.
  unfold byte_val.
  pose proof (Byte.to_N_bounded b) as Hb.
  lia.
Qed.

Lemma high_bits_of_byte (a n : Z) :
  0 <= a < 256 -> 8 <= n -> Z.testbit a n = false.
Proof.
  intros Ha Hn.
  destruct (Z.eq_dec a 0) as [-> | Hnz]; [apply Z.bits_0 |].
  apply Z.bits_above_log2; [lia |].
  apply Z.log2_lt_pow2; [lia |].
  apply Z.lt_le_trans with (2 ^ 8); [simpl; lia |].
  apply Z.pow_le_mono_r; lia.
Qed.

Lemma byte_and_shifted_disjoint (a b : Z) :
  0 <= a < 256 -> Z.land a (b * 2 ^ 8) = 0.
Proof.
  intros Ha. apply Z.bits_inj'. intros n Hn.
  rewrite Z.land_spec, Z.bits_0.
  destruct (Z.ltb_spec n 8) as [Hlt | Hge].
  - rewrite Z.mul_pow2_bits_low by lia. apply andb_false_r.
  - rewrite high_bits_of_byte by lia. reflexivity.
Qed.

Lemma lor_shiftl8 (a b : Z) :
  0 <= a < 256 -> 0 <= b -> Z.lor a (Z.shiftl b 8) = a + 256 * b.
Proof.
  intros Ha Hb.
  rewrite Z.shiftl_mul_pow2 by lia.
  rewrite <- Z.lxor_lor, <- Z.add_nocarry_lxor
    by (apply byte_and_shifted_disjoint; exact Ha).
  change (2 ^ 8) with 256. lia.
Qed.

Lemma Uint16_pair (lo hi : Byte.byte) (rest : list Byte.byte) :
  LittleEndian_Uint16 (lo :: hi :: rest) = Some (byte_val lo + 256 * byte_val hi).
Proof.
  simpl. f_equal.
  pose proof (byte_val_range lo). pose proof (byte_val_range hi).
  apply lor_shiftl8; lia.
Qed.

Lemma testbit15 (u : Z) :
  0 <= u < 65536 -> Z.testbit u 15 = (32768 <=? u).
Proof.
  intros Hu.
  rewrite Z.testbit_odd, Z.shiftr_div_pow2 by lia.
  change (2 ^ 15) with 32768.
  destruct (Z.leb_spec 32768 u) as [Hge | Hlt].
  - replace (u / 32768) with 1; [reflexivity |].
    apply Z.div_unique with (u - 32768); lia.
  - rewrite Z.div_small by lia. reflexivity.
Qed.

Lemma int16_sign_extend (lo hi : Byte.byte) :
  int16 (byte_val lo + 256 * byte_val hi) = sign_extend16 lo hi.
Proof.
  pose proof (byte_val_range lo). pose proof (byte_val_range hi).
  unfold int16, sign_extend16; cbv zeta.
  rewrite testbit15 by lia.
  change (2 ^ 15) with 32768. change (2 ^ 16) with 65536.
  destruct (Z.leb_spec 32768 (byte_val lo + 256 * byte_val hi)).
  - rewrite <- (Z.mod_unique_pos _ 65536 1 (byte_val lo + 256 * byte_val hi - 32768)); lia.
  - rewrite Z.mod_small; lia.
Qed.

Lemma sign_extend16_range (lo hi : Byte.byte) :
  -32768 <= sign_extend16 lo hi <= 32767.
Proof.
  pose proof (byte_val_range lo). pose proof (byte_val_range hi).
  unfold sign_extend16; cbv zeta.
  rewrite testbit15 by lia.
  destruct (Z.leb_spec 32768 (byte_val lo + 256 * byte_val hi)); lia.
Qed.

Lemma sign_extend16_bits (lo hi : Byte.byte) :
  sign_extend16 lo hi mod 65536 = byte_val lo + 256 * byte_val hi.
Proof.
  pose proof (byte_val_range lo). pose proof (byte_val_range hi).
  unfold sign_extend16; cbv zeta.
  destruct (Z.testbit _ 15).
  - symmetry. apply Z.mod_unique_pos with (-1); lia.
  - apply Z.mod_small; lia.
Qed.

Lemma slice_pair (data : list Byte.byte) (i : nat) (lo hi : Byte.byte) :
  data !! (i * 2)%nat = Some lo ->
  data !! (i * 2 + 1)%nat = Some hi ->
  slice data (i * 2) (i * 2 + 2) = Some [lo; hi].
Proof.
  intros Hlo Hhi.
  pose proof (lookup_lt_Some _ _ _ Hhi) as Hlen.
  unfold slice. rewrite bool_decide_true by lia. f_equal.
  replace (i * 2 + 2 - i * 2)%nat with 2%nat by lia.
  pose proof (lookup_drop data (i * 2) 0) as H0.
  pose proof (lookup_drop data (i * 2) 1) as H1.
  rewrite Nat.add_0_r, Hlo in H0. rewrite Hhi in H1.
  destruct (drop (i * 2) data) as [| x [| y l]]; simplify_eq /=; reflexivity.
Qed.

(** The loop of [to_intData] never panics; it leaves the samples before
    [i] alone and writes every sample from [i] on. *)
Lemma convert_loop_spec (data : list Byte.byte) :
  forall (todo i : nat) (acc : list Z),
    (i + todo = length data / 2)%nat ->
    length acc = (length data / 2)%nat ->
    exists out,
      Record.convert_loop data todo i acc = Some out /\
      length out = length acc /\
      (forall j, (j < i)%nat -> out !! j = acc !! j) /\
      (forall j lo hi, (i <= j)%nat ->
         data !! (j * 2)%nat = Some lo ->
         data !! (j * 2 + 1)%nat = Some hi ->
         out !! j = Some (sign_extend16 lo hi)).
Proof.
  induction todo as [| todo IH]; intros i acc Hi Hacc; simpl.
  - exists acc. repeat split; try done.
    intros j lo hi Hj _ Hhi. apply lookup_lt_Some in Hhi.
    exfalso.
    pose proof (Nat.div_mod_eq (length data) 2).
    pose proof (Nat.mod_upper_bound (length data) 2). lia.
  - assert (i * 2 + 1 < length data)%nat as Hin.
    { assert (i < length data / 2)%nat as Hlt by lia.
      pose proof (Nat.div_mod_eq (length data) 2).
      pose proof (Nat.mod_upper_bound (length data) 2). lia. }
    destruct (lookup_lt_is_Some_2 data (i * 2)) as [lo Hlo]; [lia |].
    destruct (lookup_lt_is_Some_2 data (i * 2 + 1)) as [hi Hhi]; [lia |].
    rewrite (slice_pair _ _ _ _ Hlo Hhi), Uint16_pair, int16_sign_extend.
    destruct (IH (S i) (<[i := sign_extend16 lo hi]> acc)) as (out & Hrun & Hlen & Hold & Hnew).
    { lia. }
    { rewrite length_insert. exact Hacc. }
    exists out. rewrite length_insert in Hlen. repeat split; try done.
    + intros j Hj. rewrite Hold by lia. apply list_lookup_insert_ne. lia.
    + intros j lo' hi' Hj Hlo' Hhi'.
      destruct (decide (j = i)) as [-> | Hne].
      * rewrite Hold by lia. simplify_eq.
        apply list_lookup_insert_eq. lia.
      * apply Hnew; [lia | done | done].
Qed.

(** C5. For every captured byte buffer the conversion of [runRecord]
    succeeds, yields one sample per two bytes, and sample [i] is the
    little-endian pair of bytes [2i], [2i+1] read as a signed 16-bit
    number and sign-extended: it lies in the 16-bit range and its low 16
    bits are the two bytes, so nothing is clipped, scaled or dithered. *)
Theorem samples_are_sign_extended_pairs (data : list Byte.byte) :
  exists intData,
    Record.to_intData data = Some intData /\
    length intData = (length data / 2)%nat /\
    forall (i : nat) (lo hi : Byte.byte),
      data !! (2 * i)%nat = Some lo ->
      data !! (2 * i + 1)%nat = Some hi ->
      intData !! i = Some (sign_extend16 lo hi) /\
      -32768 <= sign_extend16 lo hi <= 32767 /\
      sign_extend16 lo hi mod 65536 = byte_val lo + 256 * byte_val hi.
Proof.
  unfold Record.to_intData.
  destruct (convert_loop_spec data (length data / 2) 0
              (replicate (length data / 2) 0))
    as (out & Hrun & Hlen & _ & Hnew).
  { lia. }
  { apply length_replicate. }
  exists out. rewrite length_replicate in Hlen. repeat split; try done.
  - apply Hnew; [lia | |]; rewrite Nat.mul_comm; done.
  - apply sign_extend16_range.
  - apply sign_extend16_range.
  - apply sign_extend16_bits.
Qed.

Lemma samples_are_sign_extended_pairs_witness :
  exists intData,
    Record.to_intData [Byte.xfe; Byte.xff; Byte.x01; Byte.x00; Byte.x7f] = Some intData /\
    intData !! 0%nat = Some (-2) /\ intData !! 1%nat = Some 1 /\
    length intData = 2%nat.
Proof.
  destruct (samples_are_sign_extended_pairs
              [Byte.xfe; Byte.xff; Byte.x01; Byte.x00; Byte.x7f])
    as (out & Hrun & Hlen & Hat).
  exists out. split; [exact Hrun |].
  split; [exact (proj1 (Hat 0%nat Byte.xfe Byte.xff eq_refl eq_refl)) |].
  split; [exact (proj1 (Hat 1%nat Byte.x01 Byte.x00 eq_refl eq_refl)) |].
  exact Hlen.
Defined.

(** ** The capture relay *)

Lemma copy_fresh {A} (x : A) (src : list A) :
  copy (replicate (length src) x) src = src.
Proof.
  unfold copy. rewrite length_replicate, firstn_all, drop_ge.
  - apply app_nil_r.
  - rewrite length_replicate. lia.
Qed.

Lemma Data_spec (q : chan (list Byte.byte)) (p : list Byte.byte) :
  Record.Data q p = if full q then q else Chan (cap q) (buf q ++ [p]) (parked q).
Proof.
  unfold Record.Data. rewrite copy_fresh. unfold try_send.
  destruct (full q); reflexivity.
Qed.

Lemma written_app (l l' : list effect) :
  Record.written (l ++ l') = Record.written l ++ Record.written l'.
Proof.
  induction l as [| e l IH]; [reflexivity |].
  destruct e; simpl; rewrite ?IH; reflexivity.
Qed.

Lemma produced_app (sched sched' : list Record.event) :
  Record.produced (sched ++ sched') =
  Record.produced sched ++ Record.produced sched'.
Proof.
  induction sched as [| e sched IH]; [reflexivity |].
  destruct e; simpl; rewrite ?IH; reflexivity.
Qed.

Lemma run_snoc W C o (s : Record.state) (sched : list Record.event) (e : Record.event) :
  Record.run W C o s (sched ++ [e]) =
  Record.step W C o (Record.run W C o s sched) e.
Proof. unfold Record.run. apply fold_left_app. Qed.

Lemma to_intData_total (data : list Byte.byte) :
  exists intData, Record.to_intData data = Some intData.
Proof.
  destruct (convert_loop_spec data (length data / 2) 0
              (replicate (length data / 2) 0)) as (out & Hrun & _).
  - lia.
  - apply length_replicate.
  - exists out. exact Hrun.
Qed.

Lemma StronglySorted_snoc (l : list nat) (n : nat) :
  StronglySorted lt l -> Forall (fun i => (i < n)%nat) l ->
  StronglySorted lt (l ++ [n]).
Proof.
  induction 1 as [| i l Hs IH Hi]; intros Hall; simpl.
  - repeat constructor.
  - inversion_clear Hall as [| ? ? Hin Hl].
    constructor; [auto |].
    apply Forall_app. split; [exact Hi | repeat constructor; exact Hin].
Qed.

Lemma positions_in_range {A} (prod : list A) (idx : list nat) (ds : list A) :
  Forall2 (fun i d => prod !! i = Some d) idx ds ->
  Forall (fun i => (i < length prod)%nat) idx.
Proof.
  induction 1 as [| i d idx ds Hi _ IH]; constructor; [| exact IH].
  eapply lookup_lt_Some. exact Hi.
Qed.

Lemma positions_grow {A} (prod : list A) (x : A) (idx : list nat) (ds : list A) :
  Forall2 (fun i d => prod !! i = Some d) idx ds ->
  Forall2 (fun i d => (prod ++ [x]) !! i = Some d) idx ds.
Proof.
  intros Hf. eapply Forall2_impl; [exact Hf |].
  intros i d Hi. simpl in *. apply lookup_app_l_Some. exact Hi.
Qed.

Lemma relay_inv_log (s : Record.state) prod ac sc ph (es : list effect) :
  Record.written es = [] ->
  ph <> Record.Crashed ->
  ac = Record.audioChan s ->
  relay_inv s prod ->
  relay_inv (Record.State ac sc ph (Record.log s ++ es)) prod.
Proof.
  intros Hes Hph -> (seen & idx & Hw & Hq & Hs & Hp & Hc & Hl & _).
  exists seen, idx. simpl. rewrite written_app, Hes, app_nil_r. done.
Qed.

Lemma relay_inv_frame W (s : Record.state) prod data rest :
  buf (Record.audioChan s) = data :: rest ->
  relay_inv s prod ->
  relay_inv (Record.on_frame W s data
               (Chan (cap (Record.audioChan s)) rest [])) prod.
Proof.
  intros Hb (seen & idx & Hw & Hq & Hs & Hp & Hc & Hl & _).
  destruct (to_intData_total data) as [w Hdata].
  assert (Forall2 (fun d w => Record.to_intData d = Some w)
            (seen ++ [data]) (Record.written (Record.log s) ++ [w])) as Hw'.
  { apply Forall2_app; [exact Hw | repeat constructor; exact Hdata]. }
  rewrite Hb in Hq, Hl. simpl in Hl.
  exists (seen ++ [data]), idx. unfold Record.on_frame. rewrite Hdata.
  destruct (W w); simpl; rewrite ?written_app; simpl; rewrite ?app_nil_r;
    rewrite <- app_assoc; simpl; repeat split; try done; lia.
Qed.

Lemma relay_inv_step W C o (s : Record.state) prod (e : Record.event) :
  relay_inv s prod ->
  relay_inv (Record.step W C o s e)
            (prod ++ Record.produced [e]).
Proof.
  intros Hinv. destruct e as [p | sig | pick]; simpl.
  - (* the device delivers [p] *)
    destruct Hinv as (seen & idx & Hw & Hq & Hs & Hp & Hc & Hl & Hpc).
    destruct (Record.device_running s); [| exists seen, idx;
      repeat split; try done; apply positions_grow; exact Hq].
    rewrite Data_spec. destruct (full (Record.audioChan s)) eqn:Hfull.
    + exists seen, idx. repeat split; try done.
      apply positions_grow; exact Hq.
    + unfold full in Hfull. apply bool_decide_eq_false in Hfull.
      exists seen, (idx ++ [length prod]). simpl.
      rewrite app_assoc. repeat split; try done.
      * apply Forall2_app; [apply positions_grow; exact Hq |].
        repeat constructor. simpl.
        rewrite lookup_app_r, Nat.sub_diag by lia. reflexivity.
      * apply StronglySorted_snoc; [exact Hs |].
        eapply positions_in_range. exact Hq.
      * rewrite length_app. simpl. lia.
  - (* a signal is relayed *)
    rewrite app_nil_r.
    destruct Hinv as (seen & idx & Hw & Hq & Hs & Hp & Hc & Hl & Hpc).
    exists seen, idx. done.
  - (* the main goroutine moves *)
    rewrite app_nil_r. unfold Record.main_step.
    destruct (Record.pc s) eqn:Hpc; try exact Hinv.
    + unfold Record.select_turn, recv.
      pose proof Hinv as (_ & _ & _ & _ & _ & Hp & _).
      rewrite Hp.
      destruct (buf (Record.sigChan s)) as [| x b],
               (parked (Record.sigChan s)) as [| y q],
               (buf (Record.audioChan s)) as [| data rest] eqn:Hb;
        try exact Hinv;
        try (destruct pick);
        try (apply (relay_inv_frame W); [exact Hb | exact Hinv]);
        apply relay_inv_log; done.
    + apply relay_inv_log; done.
    + unfold Record.finalize.
      destruct C; rewrite <- ?app_assoc;
        apply relay_inv_log; done.
Qed.

Lemma relay_inv_entry : relay_inv Record.entry [].
Proof.
  exists [], []. simpl. repeat split; try done; try constructor.
  unfold Record.audioChan_cap. lia.
Qed.

Lemma relay_inv_run W C o (sched : list Record.event) :
  relay_inv (Record.run W C o Record.entry sched) (Record.produced sched).
Proof.
  induction sched as [| e sched IH] using rev_ind.
  - apply relay_inv_entry.
  - rewrite run_snoc, produced_app. apply relay_inv_step. exact IH.
Qed.

(** C3. The device callback never parks on the capture queue: on a full
    queue the incoming frame is dropped and the queue is unchanged,
    otherwise the frame is appended at the back.  The consumer takes the
    frame at the front.  After any schedule the frames handed to the
    encoder, followed by those still queued, are the produced frames at
    strictly increasing positions: an ordered subsequence with gaps where
    frames were dropped. *)
Theorem capture_relay_drops_newest_keeps_order :
  (forall (q : chan (list Byte.byte)) (p : list Byte.byte),
     parked (Record.Data q p) = parked q /\
     (full q = true -> Record.Data q p = q) /\
     (full q = false -> buf (Record.Data q p) = buf q ++ [p])) /\
  (forall W C o (s : Record.state) (pick : bool) data rest,
     Record.pc s = Record.Looping ->
     recv (Record.sigChan s) = None ->
     buf (Record.audioChan s) = data :: rest ->
     parked (Record.audioChan s) = [] ->
     exists w,
       Record.to_intData data = Some w /\
       buf (Record.audioChan (Record.main_step W C o pick s)) = rest /\
       Record.written (Record.log (Record.main_step W C o pick s)) =
       Record.written (Record.log s) ++ [w]) /\
  (forall W C o (sched : list Record.event),
     let s := Record.run W C o Record.entry sched in
     exists (seen : list (list Byte.byte)) (idx : list nat),
       Forall2 (fun d w => Record.to_intData d = Some w)
               seen (Record.written (Record.log s)) /\
       Forall2 (fun i d => Record.produced sched !! i = Some d)
               idx (seen ++ buf (Record.audioChan s)) /\
       StronglySorted lt idx /\
       parked (Record.audioChan s) = [] /\
       (length (buf (Record.audioChan s)) <= Record.audioChan_cap)%nat).
Proof.
  split; [| split].
  - intros q p. rewrite Data_spec.
    destruct (full q); repeat split; done.
  - intros W C o s pick data rest Hpc Hsig Hb Hp.
    destruct (to_intData_total data) as [w Hw]. exists w.
    split; [exact Hw |].
    unfold Record.main_step. rewrite Hpc.
    assert (recv (Record.audioChan s) =
            Some (data, Chan (cap (Record.audioChan s)) rest [])) as Hrecv.
    { unfold recv. rewrite Hb, Hp. reflexivity. }
    unfold Record.select_turn. rewrite Hsig, Hrecv.
    unfold Record.on_frame. rewrite Hw.
    destruct (W w); simpl; rewrite ?written_app; simpl;
      rewrite ?app_nil_r; done.
  - intros W C o sched s.
    destruct (relay_inv_run W C o sched)
      as (seen & idx & Hw & Hq & Hs & Hp & _ & Hl & _).
    exists seen, idx. done.
Qed.

Lemma capture_relay_drops_newest_keeps_order_witness :
  Record.Data (Chan 1 [[Byte.x01]] []) [Byte.x02] = Chan 1 [[Byte.x01]] [] /\
  buf (Record.Data (make 1) [Byte.x02]) = [[Byte.x02]].
Proof.
  destruct capture_relay_drops_newest_keeps_order as (Hproducer & _ & _).
  split.
  - apply (Hproducer (Chan 1 [[Byte.x01]] []) [Byte.x02]). reflexivity.
  - apply (Hproducer (make 1) [Byte.x02]). reflexivity.
Defined.

(** ** Stopping the recorder *)

(** Once the loop is left it is never entered again. *)
Lemma step_stays_out W C o (s : Record.state) (e : Record.event) :
  Record.pc s <> Record.Looping ->
  Record.pc (Record.step W C o s e) <> Record.Looping /\
  Record.written (Record.log (Record.step W C o s e)) =
  Record.written (Record.log s).
Proof.
  intros Hpc. destruct e as [p | sig | pick]; simpl.
  - destruct (Record.device_running s); done.
  - done.
  - unfold Record.main_step, Record.finalize.
    destruct (Record.pc s) eqn:E; try congruence; simpl; rewrite ?E;
      try (split; [discriminate | reflexivity]).
    + rewrite written_app, app_nil_r. done.
    + destruct C; rewrite !written_app; simpl; rewrite ?app_nil_r; done.
Qed.

Lemma run_stays_out W C o (sched : list Record.event) :
  forall s : Record.state,
    Record.pc s <> Record.Looping ->
    Record.pc (Record.run W C o s sched) <> Record.Looping /\
    Record.written (Record.log (Record.run W C o s sched)) =
    Record.written (Record.log s).
Proof.
  induction sched as [| e sched IH]; intros s Hpc; [done |].
  destruct (step_stays_out W C o s e Hpc) as [Hpc' Hw'].
  destruct (IH _ Hpc') as [Hout Hw]. simpl.
  split; [exact Hout | congruence].
Qed.

(** C2, as the code has it. When the consumer takes the stop signal it
    leaves the loop at once: the frames still queued at that moment stay
    in the queue and are not written, and from then on, whatever happens,
    nothing more is handed to the encoder. *)
Theorem stop_leaves_queue_and_ends_writes :
  (forall W C o (s : Record.state) (pick : bool) sig sc,
     Record.pc s = Record.Looping ->
     recv (Record.sigChan s) = Some (sig, sc) ->
     pick = true \/ recv (Record.audioChan s) = None ->
     let s' := Record.main_step W C o pick s in
     Record.pc s' = Record.LeftLoop /\
     Record.audioChan s' = Record.audioChan s /\
     Record.written (Record.log s') = Record.written (Record.log s)) /\
  (forall W C o (s : Record.state) (sched : list Record.event),
     Record.pc s <> Record.Looping ->
     Record.written (Record.log (Record.run W C o s sched)) =
     Record.written (Record.log s)).
Proof.
  split.
  - intros W C o s pick sig sc Hpc Hsig Hpick; cbv zeta.
    unfold Record.main_step. rewrite Hpc.
    unfold Record.select_turn. rewrite Hsig.
    destruct Hpick as [-> | ->];
      [destruct (recv (Record.audioChan s)) as [[data ac] |] |];
      simpl; rewrite written_app, app_nil_r; done.
  - intros W C o s sched Hpc. apply run_stays_out. exact Hpc.
Qed.

Lemma stop_leaves_queue_and_ends_writes_witness :
  let s := Record.State (Chan 1024 [[Byte.x01; Byte.x00]] [])
                        (Chan 1 [Record.Interrupt] []) Record.Looping [] in
  let s' := Record.main_step (fun _ => None) None "out.wav" true s in
  Record.pc s' = Record.LeftLoop /\
  buf (Record.audioChan s') = [[Byte.x01; Byte.x00]] /\
  Record.written
    (Record.log (Record.run (fun _ => None) None "out.wav" s'
                   [Record.HwData [Byte.x02; Byte.x00];
                    Record.Main false; Record.Main false])) = [].
Proof.
  destruct stop_leaves_queue_and_ends_writes as [Hstop Hafter].
  cbv zeta.
  destruct (Hstop (fun _ => None) None "out.wav"%string
              (Record.State (Chan 1024 [[Byte.x01; Byte.x00]] [])
                            (Chan 1 [Record.Interrupt] []) Record.Looping [])
              true Record.Interrupt (Chan 1 [] []) eq_refl eq_refl
              (or_introl eq_refl)) as (Hpc & Hq & Hw).
  split; [exact Hpc |].
  split; [rewrite Hq; reflexivity |].
  rewrite Hafter; [exact Hw | rewrite Hpc; discriminate].
Defined.

(** C2, as the specification states it, fails: a frame is accepted into the queue,
    then the stop signal arrives and the [select] takes it; the recorder
    finishes with the encoder closed, the frame never written and still
    in the queue. *)
Lemma stop_loses_queued_frame :
  let frame := [Byte.x01; Byte.x00] in
  let accepted :=
    Record.run (fun _ => None) None "out.wav" Record.entry
               [Record.HwData frame] in
  let final :=
    Record.run (fun _ => None) None "out.wav" Record.entry
               [Record.HwData frame; Record.OsSignal Record.Interrupt;
                Record.Main true; Record.Main true; Record.Main true] in
  buf (Record.audioChan accepted) = [frame] /\
  Record.pc final = Record.Done /\
  In EncoderClose (Record.log final) /\
  Record.written (Record.log final) = [] /\
  buf (Record.audioChan final) = [frame].
Proof.
  vm_compute. repeat split; auto.
Qed.

(** ** Finalization *)

Lemma capture_ops_app (l l' : list effect) :
  capture_ops (l ++ l') = capture_ops l ++ capture_ops l'.
Proof.
  induction l as [| e l IH]; [reflexivity |].
  destruct e; simpl; rewrite ?IH; reflexivity.
Qed.

Lemma ordered_step W C o (s : Record.state) (e : Record.event) :
  ordered s -> ordered (Record.step W C o s e).
Proof.
  unfold ordered. intros Hs. destruct e as [p | sig | pick]; simpl.
  - destruct (Record.device_running s); exact Hs.
  - exact Hs.
  - unfold Record.main_step.
    destruct (Record.pc s) eqn:Hpc; rewrite ?Hpc; try exact Hs.
    + fold (ordered (Record.select_turn W pick s)).
      assert (forall sc, ordered (Record.on_stop s sc)) as Hstop.
      { intros sc. unfold ordered, Record.on_stop. simpl.
        rewrite capture_ops_app, written_app, Hs. simpl.
        rewrite !app_nil_r. reflexivity. }
      assert (forall data ac, ordered (Record.on_frame W s data ac)) as Hframe.
      { intros data ac. unfold ordered, Record.on_frame.
        destruct (Record.to_intData data) as [w |]; [| simpl; rewrite Hs; done].
        destruct (W w); simpl;
          rewrite !capture_ops_app, !written_app, Hs; simpl;
          rewrite ?app_nil_r, ?map_app; reflexivity. }
      unfold Record.select_turn.
      destruct (recv (Record.sigChan s)) as [[sig sc] |],
               (recv (Record.audioChan s)) as [[data ac] |];
        try destruct pick; auto.
      all: unfold ordered; rewrite Hpc; exact Hs.
    + simpl. rewrite capture_ops_app, written_app, Hs. simpl.
      rewrite app_nil_r. reflexivity.
    + unfold Record.finalize. simpl.
      destruct C; rewrite !capture_ops_app, !written_app, Hs; simpl;
        rewrite ?app_nil_r, <- ?app_assoc; reflexivity.
Qed.

Lemma ordered_run W C o (sched : list Record.event) :
  forall s : Record.state, ordered s -> ordered (Record.run W C o s sched).
Proof.
  induction sched as [| e sched IH]; intros s Hs; [exact Hs |].
  simpl. apply IH, ordered_step, Hs.
Qed.

(** C6. After any schedule the operations on the device and the encoder
    are, in this order: the writes of the loop, then [device.Uninit()],
    then [encoder.Close()], the last two at most once each and the close
    only in a state in which the device no longer runs.  Once the loop is
    left the next two steps of the main goroutine carry the shutdown out,
    whatever the device thread and the signals do in between, so a
    recorder that has finished has stopped the device and closed the
    encoder exactly once, in that order. *)
Theorem device_stops_before_encoder_closes_once :
  (forall W C o (sched : list Record.event),
     let s := Record.run W C o Record.entry sched in
     capture_ops (Record.log s) =
     shutdown_order (Record.pc s) (Record.written (Record.log s)) /\
     (In EncoderClose (Record.log s) -> Record.device_running s = false)) /\
  (forall W C o (s : Record.state) (before between : list Record.event) p1 p2,
     Record.pc s = Record.LeftLoop ->
     (forall e, In e (before ++ between) -> forall p, e <> Record.Main p) ->
     Record.pc (Record.run W C o s
                  (before ++ Record.Main p1 :: between ++ [Record.Main p2]))
     = Record.Done).
Proof.
  split.
  - intros W C o sched s.
    assert (ordered s) as Hs by (apply ordered_run; reflexivity).
    split; [exact Hs |].
    intros Hin. unfold ordered in Hs. unfold Record.device_running.
    assert (In EncoderClose (capture_ops (Record.log s))) as Hin'.
    { clear Hs. induction (Record.log s) as [| e l IH]; [done |].
      destruct Hin as [-> | Hin]; [left; reflexivity |].
      destruct e; simpl; auto. }
    rewrite Hs in Hin'.
    destruct (Record.pc s); simpl in Hin'; try reflexivity;
      exfalso; apply in_map_iff in Hin';
      destruct Hin' as (w & Hw & _); discriminate.
  - intros W C o s before between p1 p2 Hpc Hquiet.
    assert (forall (l : list Record.event) (s0 : Record.state),
              (forall e, In e l -> forall p, e <> Record.Main p) ->
              Record.pc (Record.run W C o s0 l) = Record.pc s0 /\
              Record.log (Record.run W C o s0 l) = Record.log s0) as Hidle.
    { induction l as [| e l IH]; intros s0 Hl; [done |].
      simpl. destruct (IH (Record.step W C o s0 e)) as [Hp Hlog].
      { intros e' He'. apply Hl. right. exact He'. }
      rewrite Hp, Hlog.
      destruct e as [p | sig | pick]; simpl.
      - destruct (Record.device_running s0); done.
      - done.
      - exfalso. apply (Hl (Record.Main pick) (or_introl eq_refl) pick).
        reflexivity. }
    unfold Record.run. rewrite fold_left_app. simpl.
    rewrite fold_left_app. simpl.
    fold (Record.run W C o s before).
    set (s1 := Record.run W C o s before).
    destruct (Hidle before s) as [Hp1 _].
    { intros e He. apply Hquiet, in_app_iff. left. exact He. }
    fold s1 in Hp1.
    set (s2 := Record.main_step W C o p1 s1).
    assert (Record.pc s2 = Record.DeviceStopped) as Hp2.
    { unfold s2, Record.main_step. rewrite Hp1, Hpc. reflexivity. }
    fold (Record.run W C o s2 between).
    destruct (Hidle between s2) as [Hp3 _].
    { intros e He. apply Hquiet, in_app_iff. right. exact He. }
    unfold Record.main_step. rewrite Hp3, Hp2. reflexivity.
Qed.

Lemma device_stops_before_encoder_closes_once_witness :
  let s := Record.State (Chan 1024 [] []) (Chan 1 [] [])
                        Record.LeftLoop
                        [EncoderWrite [1; -2]] in
  let final :=
    Record.run (fun _ => None) None "out.wav" s
      ([Record.HwData [Byte.x01; Byte.x00]] ++ Record.Main false ::
       [Record.OsSignal Record.SIGTERM] ++ [Record.Main false]) in
  Record.pc final = Record.Done /\
  capture_ops (Record.log final) =
  [EncoderWrite [1; -2]; DeviceUninit; EncoderClose].
Proof.
  cbv zeta. split; [| reflexivity].
  destruct device_stops_before_encoder_closes_once as [_ Hdone].
  apply (Hdone (fun _ => None) None "out.wav"%string
           (Record.State (Chan 1024 [] []) (Chan 1 [] [])
                         Record.LeftLoop [EncoderWrite [1; -2]])
           [Record.HwData [Byte.x01; Byte.x00]]
           [Record.OsSignal Record.SIGTERM] false false eq_refl).
  intros e [<- | [<- | []]] p; discriminate.
Defined.

(** ** The control loop of the player *)

Section PlayerTheory.
Context {Lib : Library}.
Import Player.

Ltac run_go :=
  unfold Update, View, bind, ret, poll_done, get_Paused, set_Paused,
    speaker_Lock, speaker_Unlock, Position, Len, note; simpl.

(** The accesses of a tick that gets as far as the position. *)
Lemma tick_accesses (m : model) (h : heap) :
  recv (done (audio h)) = None -> ctrl_Paused (audio h) = false ->
  accesses (snd (Update m tickMsg h)) =
  accesses h ++
  [PollDone false; ReadPaused; Lock; ReadPosition; Unlock; ReadLen].
Proof.
  intros Hrecv Hrun. run_go. rewrite Hrecv. simpl. rewrite Hrun. simpl.
  destruct (streamer_Len (audio h) >? 0);
    destruct (progress_SetPercent _ _); simpl;
    rewrite <- !app_assoc; reflexivity.
Qed.

(** C1. A tick is handled in this order of precedence.  First the
    completion signal is polled without blocking; if it has fired the
    result is [tea.Quit], with the model as it was and no access to the
    stream.  Otherwise, if the gate is paused, only the next tick is
    armed: the model is as it was and the position is not read.
    Otherwise the position is read between [speaker.Lock()] and
    [speaker.Unlock()], [pct] becomes position/length when the length is
    positive and stays as it was when the length is 0, the progress bar
    is set to [pct] and the next tick is armed together with the bar's
    command. *)
Theorem tick_precedence (m : model) (h : heap) :
  let '(m', cmd, h') := Update m tickMsg h in
  (completion_fired h ->
     m' = m /\ cmd = Quit /\
     accesses h' = accesses h ++ [PollDone true]) /\
  (~ completion_fired h -> ctrl_Paused (audio h) = true ->
     m' = m /\ cmd = tickCmd /\ audio h' = audio h /\
     accesses h' = accesses h ++ [PollDone false; ReadPaused]) /\
  (~ completion_fired h -> ctrl_Paused (audio h) = false ->
     let position := streamer_Position (audio h) in
     let length := streamer_Len (audio h) in
     accesses h' =
       accesses h ++
       [PollDone false; ReadPaused; Lock; ReadPosition; Unlock; ReadLen] /\
     audio h' = audio h /\
     (0 < length ->
        pct m' = PrimFloat.div (float64_of_int position) (float64_of_int length)) /\
     (length = 0 -> pct m' = pct m) /\
     progress m' = fst (progress_SetPercent (progress m) (pct m')) /\
     cmd = Batch [FromLib (snd (progress_SetPercent (progress m) (pct m')));
                  tickCmd] /\
     playing m' = playing m /\ filename m' = filename m /\ err m' = err m).
Proof.
  unfold completion_fired. run_go.
  destruct (recv (done (audio h))) as [[v c] |] eqn:Hrecv; simpl.
  - split; [done |]. split; intros Hnot; exfalso; apply Hnot; done.
  - destruct (ctrl_Paused (audio h)) eqn:Hp; simpl.
    + split; [intros Hf; exfalso; apply Hf; reflexivity |].
      rewrite <- !app_assoc. simpl. split; [done |]. intros _ Hq. discriminate.
    + destruct (Z.gtb_spec (streamer_Len (audio h)) 0) as [Hpos | Hnon];
        simpl;
        destruct (progress_SetPercent _ _) as [p c] eqn:Hset; simpl;
        (split; [intros Hf; exfalso; apply Hf; reflexivity |]);
        (split; [intros _ Hq; discriminate |]); intros _ _;
        rewrite <- !app_assoc; simpl; rewrite Hset;
        repeat split; try done; lia.
Qed.

(** *** What [Update] and the audio thread leave alone *)

Lemma space_toggles (m : model) (h : heap) :
  let '(m', cmd, h') := Update m (KeyMsg " ") h in
  ctrl_Paused (audio h') = negb (ctrl_Paused (audio h)) /\
  playing m' = negb (ctrl_Paused (audio h')) /\
  cmd = CmdNil /\
  streamer_Position (audio h') = streamer_Position (audio h) /\
  hw h' = hw h /\ done (audio h') = done (audio h) /\
  accesses h' =
    accesses h ++
    [ReadPaused; WritePaused (negb (ctrl_Paused (audio h))); ReadPaused].
Proof.
  run_go. rewrite <- !app_assoc. simpl. done.
Qed.

Lemma other_messages_keep_gate (m : model) (msg : Msg) (h : heap) :
  msg <> KeyMsg " " ->
  let '(m', cmd, h') := Update m msg h in
  ctrl_Paused (audio h') = ctrl_Paused (audio h) /\ playing m' = playing m.
Proof.
  intros Hmsg. destruct msg as [key | | f | w ht |]; run_go.
  2-5: clear Hmsg; try done.
  - destruct (_ || _)%bool; [done |].
    destruct (String.eqb_spec key " ") as [-> | Hne]; [congruence | done].
  - destruct (recv (done (audio h))) as [[v c] |]; simpl.
    { split; reflexivity. }
    destruct (ctrl_Paused (audio h)) eqn:Hp; simpl; [done |].
    destruct (streamer_Len (audio h) >? 0);
      destruct (progress_SetPercent _ _); done.
  - destruct (progress_Update _ _). done.
Qed.

Lemma callback_keeps_gate (a : audioState) :
  ctrl_Paused (fst (completion_callback a)) = ctrl_Paused a /\
  streamer_Position (fst (completion_callback a)) = streamer_Position a.
Proof.
  unfold completion_callback. destruct (send (done a) true). done.
Qed.

Lemma hw_keeps_gate (n : Z) (h : heap) :
  ctrl_Paused (audio (hw_callback n h)) = ctrl_Paused (audio h).
Proof.
  unfold hw_callback. destruct (hw h); [| | done].
  - destruct (ctrl_Paused (audio h)) eqn:Hp; [done |].
    destruct (_ <? _); [simpl; done |].
    pose proof (callback_keeps_gate (audio h)) as [Hg _].
    destruct (completion_callback (audio h)). simpl in *. congruence.
  - destruct (parked _); done.
Qed.

Lemma hw_paused_keeps_position (n : Z) (h : heap) :
  ctrl_Paused (audio h) = true ->
  streamer_Position (audio (hw_callback n h)) = streamer_Position (audio h).
Proof.
  intros Hp. unfold hw_callback. destruct (hw h); [| | done].
  - rewrite Hp. done.
  - destruct (parked _); done.
Qed.

Lemma hw_turns_while_paused (ns : list Z) :
  forall (m : model) (h : heap),
    ctrl_Paused (audio h) = true ->
    let '(m', h') := play (m, h) (map Hardware ns) in
    m' = m /\ ctrl_Paused (audio h') = true /\
    streamer_Position (audio h') = streamer_Position (audio h).
Proof.
  induction ns as [| n ns IH]; intros m h Hp; [done |].
  simpl. specialize (IH m (hw_callback n h)).
  rewrite hw_keeps_gate in IH. specialize (IH Hp).
  destruct (play _ _) as [m' h']. rewrite hw_paused_keeps_position in IH; done.
Qed.

(** C7. The space key flips the gate inside [Update] itself: the heap
    that [Update] returns already has the new gate, the command is nil so
    nothing is left for a later tick, and the position is untouched.  Two
    space keys in a row give back the gate and the position they started
    from.  While the gate is paused the turns of the audio thread do not
    move the position, so a running player that is paused, left to the
    audio thread for any number of buffers and resumed is where it was. *)
Theorem space_key_toggles_gate_at_once :
  (forall (m : model) (h : heap),
     let '(m1, c1, h1) := Update m (KeyMsg " ") h in
     let '(m2, c2, h2) := Update m1 (KeyMsg " ") h1 in
     ctrl_Paused (audio h1) = negb (ctrl_Paused (audio h)) /\
     c1 = CmdNil /\
     streamer_Position (audio h1) = streamer_Position (audio h) /\
     ctrl_Paused (audio h2) = ctrl_Paused (audio h) /\
     streamer_Position (audio h2) = streamer_Position (audio h)) /\
  (forall (n : Z) (h : heap),
     ctrl_Paused (audio h) = true ->
     streamer_Position (audio (hw_callback n h)) =
     streamer_Position (audio h)) /\
  (forall (m : model) (h : heap) (ns : list Z),
     ctrl_Paused (audio h) = false ->
     let '(m', h') :=
       play (m, h)
            (Deliver (KeyMsg " ") :: map Hardware ns ++ [Deliver (KeyMsg " ")]) in
     ctrl_Paused (audio h') = false /\
     streamer_Position (audio h') = streamer_Position (audio h)).
Proof.
  split; [| split].
  - intros m h.
    pose proof (space_toggles m h) as H1.
    destruct (Update m (KeyMsg " ") h) as [[m1 c1] h1].
    pose proof (space_toggles m1 h1) as H2.
    destruct (Update m1 (KeyMsg " ") h1) as [[m2 c2] h2].
    destruct H1 as (Hg1 & _ & Hc1 & Hp1 & _), H2 as (Hg2 & _ & _ & Hp2 & _).
    rewrite Hg2, Hg1, negb_involutive. repeat split; congruence.
  - intros n h. apply hw_paused_keeps_position.
  - intros m h ns Hrun. unfold play.
    change (Deliver (KeyMsg " ") :: map Hardware ns ++ [Deliver (KeyMsg " ")])
      with ([Deliver (KeyMsg " ")] ++ map Hardware ns ++ [Deliver (KeyMsg " ")]).
    rewrite !fold_left_app. cbn [fold_left play_turn fst snd].
    pose proof (space_toggles m h) as H1.
    destruct (Update m (KeyMsg " ") h) as [[m1 c1] h1].
    destruct H1 as (Hg1 & _ & _ & Hp1 & _). rewrite Hrun in Hg1. simpl in Hg1.
    pose proof (hw_turns_while_paused ns m1 h1 Hg1) as Hhw.
    unfold play in Hhw. destruct (fold_left _ _ _) as [m2 h2].
    cbn [fst snd].
    destruct Hhw as (_ & Hg2 & Hp2).
    pose proof (space_toggles m2 h2) as H3.
    destruct (Update m2 (KeyMsg " ") h2) as [[m3 c3] h3].
    destruct H3 as (Hg3 & _ & _ & Hp3 & _).
    rewrite Hg3, Hg2. split; [reflexivity | congruence].
Qed.

(** *** The playing flag *)

Lemma initialModel_success (fname : string) (env : environment)
    (m : model) (h : heap) :
  fst (initialModel fname env) = inl (m, h) ->
  m = Model progress_New fname true 0%float None /\
  h = Heap (AudioState 0 (Decode_Len env) (Decode_SampleRate env) false
              (SampleRate_D (Decode_SampleRate env) (Decode_Len env))
              (make 0))
           Streaming [].
Proof.
  unfold initialModel.
  destruct (Open_err env); [discriminate |].
  destruct (Decode_err env); [discriminate |].
  destruct (SpeakerInit_err env); [discriminate |].
  simpl. intros [= <- <-]. done.
Qed.

Lemma space_or_not (msg : Msg) : msg = KeyMsg " " \/ msg <> KeyMsg " ".
Proof.
  destruct msg as [key | | f | w ht |]; try (right; discriminate).
  destruct (String.eqb_spec key " ") as [-> | Hne]; [left; reflexivity |].
  right. intros [= Hk]. contradiction.
Qed.

Lemma tick_or_not (msg : Msg) : msg = tickMsg \/ msg <> tickMsg.
Proof. destruct msg; (left; reflexivity) || (right; discriminate). Qed.

Lemma Update_keeps_flag (m : model) (msg : Msg) (h : heap) :
  playing m = negb (ctrl_Paused (audio h)) ->
  let '(m', cmd, h') := Update m msg h in
  playing m' = negb (ctrl_Paused (audio h')).
Proof.
  intros Hinv. destruct (space_or_not msg) as [-> | Hmsg].
  - pose proof (space_toggles m h) as Ht.
    destruct (Update m (KeyMsg " ") h) as [[m' cmd] h']. tauto.
  - pose proof (other_messages_keep_gate m msg h Hmsg) as Hk.
    destruct (Update m msg h) as [[m' cmd] h'].
    destruct Hk as [-> ->]. exact Hinv.
Qed.

Lemma play_keeps_flag (ts : list turn) :
  forall (m : model) (h : heap),
    playing m = negb (ctrl_Paused (audio h)) ->
    let '(m', h') := play (m, h) ts in
    playing m' = negb (ctrl_Paused (audio h')).
Proof.
  induction ts as [| t ts IH]; intros m h Hinv; [exact Hinv |].
  unfold play. cbn [fold_left]. fold (play (play_turn (m, h) t) ts).
  destruct t as [msg | n]; cbn [play_turn fst snd].
  - pose proof (Update_keeps_flag m msg h Hinv) as Hk.
    destruct (Update m msg h) as [[m' cmd] h']. apply IH, Hk.
  - apply IH. rewrite hw_keeps_gate. exact Hinv.
Qed.

(** C10. The playing flag is the negation of the pause gate: in the
    model that [initialModel] returns the flag is true and the gate is
    open; every message handled by [Update] (key, tick, resize, progress
    frame or any other) keeps [playing = not Paused]; so it holds after
    any run of messages and audio-thread turns from the initial model. *)
Theorem playing_is_not_paused :
  (forall (fname : string) (env : environment) (m : model) (h : heap),
     fst (initialModel fname env) = inl (m, h) ->
     playing m = true /\ ctrl_Paused (audio h) = false) /\
  (forall (m : model) (msg : Msg) (h : heap),
     playing m = negb (ctrl_Paused (audio h)) ->
     let '(m', cmd, h') := Update m msg h in
     playing m' = negb (ctrl_Paused (audio h'))) /\
  (forall (fname : string) (env : environment) (m : model) (h : heap)
          (ts : list turn),
     fst (initialModel fname env) = inl (m, h) ->
     let '(m', h') := play (m, h) ts in
     playing m' = negb (ctrl_Paused (audio h'))).
Proof.
  split; [| split].
  - intros fname env m h Hinit.
    destruct (initialModel_success _ _ _ _ Hinit) as [-> ->]. done.
  - apply Update_keeps_flag.
  - intros fname env m h ts Hinit. apply play_keeps_flag.
    destruct (initialModel_success _ _ _ _ Hinit) as [-> ->]. done.
Qed.

(** *** The completion signal *)

Lemma send_on_rendezvous (a : audioState) :
  cap (done a) = 0%nat -> buf (done a) = [] -> parked (done a) = [] ->
  snd (completion_callback a) = false /\
  cap (done (fst (completion_callback a))) = 0%nat /\
  buf (done (fst (completion_callback a))) = [] /\
  parked (done (fst (completion_callback a))) = [true].
Proof.
  intros Hc Hb Hp. unfold completion_callback, send, full.
  rewrite Hc, Hb, Hp. simpl. done.
Qed.

Lemma Update_done (m : model) (msg : Msg) (h : heap) :
  buf (done (audio h)) = [] ->
  let '(m', cmd, h') := Update m msg h in
  hw h' = hw h /\ cap (done (audio h')) = cap (done (audio h)) /\
  buf (done (audio h')) = [] /\
  (msg <> tickMsg -> done (audio h') = done (audio h)) /\
  (msg = tickMsg ->
     parked (done (audio h')) = tail (parked (done (audio h))) /\
     (parked (done (audio h)) <> [] -> cmd = Quit)).
Proof.
  intros Hb. destruct msg as [key | | f | w ht |]; run_go.
  - destruct (_ || _)%bool; [done |].
    destruct (String.eqb key " "); done.
  - unfold recv. rewrite Hb.
    destruct (parked (done (audio h))) as [| y q] eqn:Hq; simpl.
    + destruct (ctrl_Paused (audio h)) eqn:Hp; simpl; [done |].
      destruct (streamer_Len (audio h) >? 0);
        destruct (progress_SetPercent _ _); done.
    + done.
  - destruct (progress_Update _ _). done.
  - done.
  - done.
Qed.

Lemma Update_keeps_rendezvous (m : model) (msg : Msg) (h : heap) :
  rendezvous h ->
  let '(m', cmd, h') := Update m msg h in rendezvous h'.
Proof.
  intros (Hc & Hb & Hp).
  pose proof (Update_done m msg h Hb) as Hd.
  destruct (Update m msg h) as [[m' cmd] h'].
  destruct Hd as (Hhw & Hc' & Hb' & Hother & Htick).
  unfold rendezvous. rewrite Hhw, Hc'. repeat split; try done.
  destruct (tick_or_not msg) as [-> | Hne].
  - destruct (Htick eq_refl) as [-> _].
    destruct (hw h); try (rewrite Hp; done).
    destruct Hp as [-> | ->]; left; done.
  - rewrite (Hother Hne). exact Hp.
Qed.

Lemma hw_keeps_rendezvous (n : Z) (h : heap) :
  rendezvous h -> rendezvous (hw_callback n h).
Proof.
  intros (Hc & Hb & Hp). unfold hw_callback.
  destruct (hw h) eqn:Hhw.
  - destruct (ctrl_Paused (audio h)); [unfold rendezvous; rewrite Hhw; done |].
    destruct (_ <? _); [unfold rendezvous; simpl; done |].
    destruct (send_on_rendezvous (audio h) Hc Hb Hp) as (Hw & Hc' & Hb' & Hp').
    destruct (completion_callback (audio h)) as [a' went].
    simpl in *. subst went. unfold rendezvous. simpl. auto.
  - destruct (parked (done (audio h))) eqn:Hq.
    + unfold rendezvous. simpl. done.
    + unfold rendezvous. rewrite Hhw, Hq. done.
  - unfold rendezvous. rewrite Hhw. done.
Qed.

Lemma play_keeps_rendezvous (ts : list turn) :
  forall (m : model) (h : heap),
    rendezvous h -> rendezvous (snd (play (m, h) ts)).
Proof.
  induction ts as [| t ts IH]; intros m h Hinv; [exact Hinv |].
  unfold play. cbn [fold_left]. fold (play (play_turn (m, h) t) ts).
  destruct t as [msg | n]; cbn [play_turn fst snd].
  - pose proof (Update_keeps_rendezvous m msg h Hinv) as Hk.
    destruct (Update m msg h) as [[m' cmd] h']. apply IH, Hk.
  - apply IH, hw_keeps_rendezvous, Hinv.
Qed.

(** C4, as the code has it. [done] is made without a buffer.  In every
    state the player reaches from its initial model the channel has
    capacity 0 and holds nothing; the completion function's send does not
    go through but parks the audio thread, which then makes no progress;
    at most one value is ever parked and the audio thread past the source
    never sends again; messages other than a tick leave the sender
    parked; the first tick receives the value, answers with [tea.Quit]
    and frees the sender. *)
Theorem completion_signal_is_unbuffered_rendezvous
    (fname : string) (env : environment) (m : model) (h : heap)
    (ts : list turn) :
  fst (initialModel fname env) = inl (m, h) ->
  let '(m', h') := play (m, h) ts in
  cap (done (audio h')) = 0%nat /\
  buf (done (audio h')) = [] /\
  (length (parked (done (audio h'))) <= 1)%nat /\
  (parked (done (audio h')) = [] ->
     snd (completion_callback (audio h')) = false /\
     parked (done (fst (completion_callback (audio h')))) = [true]) /\
  (hw h' <> Streaming ->
     forall n, done (audio (hw_callback n h')) = done (audio h')) /\
  (parked (done (audio h')) = [true] ->
     (forall n, hw_callback n h' = h') /\
     (forall msg, msg <> tickMsg ->
        parked (done (audio (snd (Update m' msg h')))) = [true]) /\
     snd (fst (Update m' tickMsg h')) = Quit /\
     parked (done (audio (snd (Update m' tickMsg h')))) = []).
Proof.
  intros Hinit.
  assert (rendezvous h) as Hh.
  { destruct (initialModel_success _ _ _ _ Hinit) as [_ ->].
    unfold rendezvous. simpl. done. }
  pose proof (play_keeps_rendezvous ts m h Hh) as Hinv.
  destruct (play (m, h) ts) as [m' h']. cbn [snd] in Hinv.
  destruct Hinv as (Hc & Hb & Hp).
  split; [exact Hc |]. split; [exact Hb |]. split; [| split; [| split]].
  - destruct (hw h'); try (rewrite Hp; simpl; lia).
    destruct Hp as [-> | ->]; simpl; lia.
  - intros Hq. destruct (send_on_rendezvous (audio h') Hc Hb Hq) as (? & _ & _ & ?).
    done.
  - intros Hhw n. unfold hw_callback.
    destruct (hw h'); [done | | done].
    destruct (parked (done (audio h'))); done.
  - intros Hq. split; [| split].
    + intros n. unfold hw_callback.
      destruct (hw h'); [rewrite Hq in Hp; done | rewrite Hq; done | done].
    + intros msg Hmsg.
      pose proof (Update_done m' msg h' Hb) as Hd.
      destruct (Update m' msg h') as [[m2 cmd] h2].
      destruct Hd as (_ & _ & _ & Hother & _). cbn [snd].
      rewrite (Hother Hmsg). exact Hq.
    + pose proof (Update_done m' tickMsg h' Hb) as Hd.
      destruct (Update m' tickMsg h') as [[m2 cmd] h2].
      destruct Hd as (_ & _ & _ & _ & Htick). cbn [fst snd].
      destruct (Htick eq_refl) as [Ht Hquit]. rewrite Ht, Hq.
      split; [apply Hquit; rewrite Hq; done | done].
Qed.

(** *** Reading the position *)

(** C9 does not hold of [View]. The tick handler reads the position
    between [speaker.Lock()] and [speaker.Unlock()], as its own comment
    asks for; [View] reads the position with no lock taken: of its
    accesses one position read is outside the lock. *)
Theorem View_reads_position_without_lock (m : model) (h : heap) :
  err m = None ->
  (~ completion_fired h -> ctrl_Paused (audio h) = false ->
   exists l, accesses (snd (Update m tickMsg h)) = accesses h ++ l /\
             In ReadPosition l /\ unlocked_reads false l = 0%nat) /\
  (exists l, accesses (snd (View m h)) = accesses h ++ l /\
             In ReadPosition l /\ unlocked_reads false l = 1%nat /\
             ~ In Lock l).
Proof.
  intros Herr. split.
  - intros Hnot Hrun. eexists. split.
    + apply tick_accesses; [| exact Hrun].
      unfold completion_fired in Hnot.
      destruct (recv (done (audio h))); [exfalso; apply Hnot |]; done.
    + simpl. split; [tauto | reflexivity].
  - exists [ReadPosition]. unfold View. rewrite Herr. run_go.
    split; [reflexivity |]. split; [left; reflexivity |].
    split; [reflexivity |]. intros [Hin | []]. discriminate.
Qed.

(** *** Start-up errors *)

(** C8, as the code has it. On a start-up error of the player (open,
    decode or speaker initialization) [runPlayer] releases what it had
    opened, prints the error on standard output and exits with status 1;
    the UI is not started and nothing is written to standard error.  On
    a start-up error of the recorder [runRecord] panics: the loop is not
    reached, nothing is printed on standard output, and the run time
    reports the panic on standard error and ends the process with
    status 2. *)
Theorem startup_errors_abort_before_ui :
  (forall (fname : string) (env : environment),
     player_startup_error env ->
     exists cleanup e,
       runPlayer fname env =
         cleanup ++ [Stdout ("Error initializing: " +++ e +++ nl); Exit 1] /\
       Forall (fun x => x = FileClose \/ x = StreamerClose) cleanup /\
       ~ In StartUI (runPlayer fname env) /\
       filter is_Stderr (runPlayer fname env) = []) /\
  (forall env : Record.startup,
     recorder_startup_error env ->
     exists cleanup e,
       Record.runRecord_startup env =
         (cleanup ++ [Stderr ("panic: " +++ e); Exit 2], false) /\
       Forall (fun x => x = FileClose \/ x = ContextUninit) cleanup /\
       filter is_Stdout (fst (Record.runRecord_startup env)) = []).
Proof.
  split.
  - intros fname env Herr. unfold runPlayer, initialModel.
    destruct (Open_err env) as [e |] eqn:Ho.
    { exists [], ("打开文件失败: " +++ e)%string. simpl.
      split; [reflexivity |]. split; [constructor |].
      split; [| reflexivity]. intros [? | [? | []]]; discriminate. }
    destruct (Decode_err env) as [e |] eqn:Hd.
    { exists [FileClose], ("解码 WAV 失败: " +++ e)%string. simpl.
      split; [reflexivity |]. split; [repeat (apply List.Forall_cons; [tauto |]); apply List.Forall_nil |].
      split; [| reflexivity]. intros [? | [? | [? | []]]]; discriminate. }
    destruct (SpeakerInit_err env) as [e |] eqn:Hs.
    { exists [StreamerClose], ("初始化扬声器失败: " +++ e)%string. simpl.
      split; [reflexivity |]. split; [repeat (apply List.Forall_cons; [tauto |]); apply List.Forall_nil |].
      split; [| reflexivity]. intros [? | [? | [? | []]]]; discriminate. }
    exfalso. unfold player_startup_error in Herr.
    rewrite Ho, Hd, Hs in Herr. tauto.
  - intros env Herr. unfold Record.runRecord_startup, runtime_panic.
    destruct (Record.InitContext_err env) as [e |] eqn:H1.
    { exists [], e. repeat split; done. }
    destruct (Record.InitDevice_err env) as [e |] eqn:H2.
    { exists [ContextUninit], e. split; [reflexivity |]. split; [| reflexivity].
      repeat (apply List.Forall_cons; [tauto |]); apply List.Forall_nil. }
    destruct (Record.Create_err env) as [e |] eqn:H3.
    { exists [ContextUninit], e. split; [reflexivity |]. split; [| reflexivity].
      repeat (apply List.Forall_cons; [tauto |]); apply List.Forall_nil. }
    destruct (Record.Start_err env) as [e |] eqn:H4.
    { exists [FileClose; ContextUninit], e. split; [reflexivity |]. split; [| reflexivity].
      repeat (apply List.Forall_cons; [tauto |]); apply List.Forall_nil. }
    exfalso. unfold recorder_startup_error in Herr.
    rewrite H1, H2, H3, H4 in Herr. tauto.
Qed.

End PlayerTheory.

(** ** The theorems at work *)

Lemma tick_precedence_witness :
  let '(m', cmd, h') :=
    Player.Update (Lib := plain_library) shown Player.tickMsg one_second_in in
  Player.accesses h' =
    [Player.PollDone false; Player.ReadPaused; Player.Lock;
     Player.ReadPosition; Player.Unlock; Player.ReadLen] /\
  Player.pct m' =
    PrimFloat.div (float64_of_int 44100) (float64_of_int 132300) /\
  cmd = Player.Batch [Player.FromLib (Lib := plain_library) 1%nat;
                      Player.tickCmd].
Proof.
  pose proof (tick_precedence (Lib := plain_library) shown one_second_in) as Ht.
  destruct (Player.Update shown Player.tickMsg one_second_in)
    as [[m' cmd] h'].
  destruct Ht as (_ & _ & Ht).
  destruct Ht as (Hacc & _ & Hpct & _ & _ & Hcmd & _).
  - intros Hfired. apply Hfired. reflexivity.
  - reflexivity.
  - split; [exact Hacc |]. split; [apply Hpct; reflexivity |].
    rewrite Hcmd. reflexivity.
Defined.

Lemma space_key_toggles_gate_at_once_witness :
  let '(m', h') :=
    Player.play (Lib := plain_library) (shown, one_second_in)
      (Player.Deliver (Player.KeyMsg " ") ::
       map Player.Hardware [4410; 4410; 4410] ++
       [Player.Deliver (Player.KeyMsg " ")]) in
  Player.ctrl_Paused (Player.audio h') = false /\
  Player.streamer_Position (Player.audio h') = 44100.
Proof.
  destruct (space_key_toggles_gate_at_once (Lib := plain_library))
    as (_ & _ & Hresume).
  apply (Hresume shown one_second_in [4410; 4410; 4410]). reflexivity.
Defined.

Lemma playing_is_not_paused_witness :
  let '(m', h') :=
    Player.play at_start
      [Player.Deliver (Player.KeyMsg " "); Player.Hardware 4410;
       Player.Deliver Player.tickMsg;
       Player.Deliver (Player.WindowSizeMsg 120 40)] in
  Player.playing m' = negb (Player.ctrl_Paused (Player.audio h')).
Proof.
  destruct (playing_is_not_paused (Lib := plain_library)) as (_ & _ & Hrun).
  apply (Hrun "a.wav"%string three_seconds (fst at_start) (snd at_start)).
  reflexivity.
Defined.

Lemma completion_signal_is_unbuffered_rendezvous_witness :
  let '(m', h') :=
    Player.play at_start [Player.Hardware 132300; Player.Hardware 4410] in
  parked (Player.done (Player.audio h')) = [true] /\
  snd (fst (Player.Update m' Player.tickMsg h')) = Player.Quit /\
  Player.hw_callback 4410 h' = h'.
Proof.
  pose proof (completion_signal_is_unbuffered_rendezvous (Lib := plain_library)
                "a.wav"%string three_seconds (fst at_start) (snd at_start)
                [Player.Hardware 132300; Player.Hardware 4410] eq_refl) as Hc.
  change (fst at_start, snd at_start) with at_start in Hc.
  destruct (Player.play _ _) as [m' h'] eqn:Hplay.
  assert (parked (Player.done (Player.audio h')) = [true]) as Hparked.
  { vm_compute in Hplay. injection Hplay as <- <-. reflexivity. }
  destruct Hc as (_ & _ & _ & _ & _ & Hc).
  destruct (Hc Hparked) as (Hstuck & _ & Hquit & _).
  split; [exact Hparked |]. split; [exact Hquit | apply Hstuck].
Defined.

(** C4, as the specification states it, fails: the channel the player makes has
    capacity 0, not 1, and the completion function's send on it does not
    go through: the sender is parked. *)
Lemma completion_signal_is_not_buffered :
  exists m h,
    fst (Player.initialModel (Lib := plain_library) "a.wav" three_seconds)
      = inl (m, h) /\
    cap (Player.done (Player.audio h)) <> 1%nat /\
    cap (Player.done (Player.audio h)) = 0%nat /\
    snd (Player.completion_callback (Player.audio h)) = false /\
    parked (Player.done (fst (Player.completion_callback (Player.audio h))))
      = [true].
Proof.
  eexists _, _. split; [reflexivity |]. simpl.
  repeat split; try reflexivity. discriminate.
Qed.

Lemma View_reads_position_without_lock_witness :
  exists l,
    Player.accesses (snd (Player.View (Lib := plain_library) shown one_second_in))
      = l /\
    Player.unlocked_reads false l = 1%nat.
Proof.
  destruct (View_reads_position_without_lock (Lib := plain_library)
              shown one_second_in eq_refl) as (_ & l & Hacc & _ & Hone & _).
  exists l. split; [exact Hacc | exact Hone].
Defined.

Lemma startup_errors_abort_before_ui_witness :
  Player.runPlayer (Lib := plain_library) "a.wav"
    (Player.Environment None (Some "bad header"%string) 0 0 None None) =
  [FileClose;
   Stdout ("Error initializing: " +++ "解码 WAV 失败: " +++ "bad header" +++ nl);
   Exit 1].
Proof.
  destruct (startup_errors_abort_before_ui (Lib := plain_library)) as [Hplayer _].
  destruct (Hplayer "a.wav"%string
              (Player.Environment None (Some "bad header"%string) 0 0 None None))
    as (cleanup & e & Hrun & _).
  - right. left. discriminate.
  - reflexivity.
Defined.

(** C8, as the specification states it, fails: when the file cannot be opened the
    player prints the error on standard output and nothing on standard
    error. *)
Lemma player_startup_error_is_on_stdout :
  let out :=
    Player.runPlayer (Lib := plain_library) "missing.wav"
      (Player.Environment (Some "no such file"%string) None 0 0 None None) in
  out = [Stdout ("Error initializing: " +++ "打开文件失败: " +++
                 "no such file" +++ nl);
         Exit 1] /\
  filter is_Stderr out = [] /\
  filter is_Stdout out <> [].
Proof.
  cbv zeta. split; [reflexivity |]. split; [reflexivity | discriminate].
Qed.

(* ===================================================================== *)
(** * Further properties *)
(* ===================================================================== *)

(** ** Samples across buffers *)

Lemma pair_ind {A} (P : list A -> Prop) :
  P [] -> (forall x, P [x]) ->
  (forall x y l, P l -> P (x :: y :: l)) ->
  forall l, P l.
Proof.
  intros Hnil Hone Hstep l.
  assert (P l /\ forall x, P (x :: l)) as [Hl _]; [| exact Hl].
  induction l as [| y l [IH1 IH2]]; split; auto.
Qed.

Lemma pair_samples_length (data : list Byte.byte) :
  length (pair_samples data) = (length data / 2)%nat.
Proof.
  induction data as [| x | lo hi rest IH] using pair_ind; [done | done |].
  cbn [pair_samples length]. rewrite IH.
  change (S (S (length rest))) with (1 * 2 + length rest)%nat.
  rewrite Nat.div_add_l by lia. lia.
Qed.

Lemma pair_samples_lookup (data : list Byte.byte) :
  forall (i : nat) (lo hi : Byte.byte),
    data !! (i * 2)%nat = Some lo ->
    data !! (i * 2 + 1)%nat = Some hi ->
    pair_samples data !! i = Some (sign_extend16 lo hi).
Proof.
  induction data as [| x | a b rest IH] using pair_ind;
    intros i lo hi Hlo Hhi.
  - done.
  - apply lookup_lt_Some in Hhi. simpl in Hhi. lia.
  - destruct i as [| i]; simpl in *; [congruence |].
    apply IH; assumption.
Qed.

(** The loop of [runRecord] computes the samples pair by pair. *)
Lemma to_intData_pairs (data : list Byte.byte) :
  Record.to_intData data = Some (pair_samples data).
Proof.
  unfold Record.to_intData.
  destruct (convert_loop_spec data (length data / 2) 0
              (replicate (length data / 2) 0))
    as (out & Hrun & Hlen & _ & Hnew); [lia | apply length_replicate |].
  rewrite Hrun. f_equal. rewrite length_replicate in Hlen.
  apply list_eq. intros i.
  destruct (decide (i < length data / 2)%nat) as [Hi | Hi].
  - assert (i * 2 + 1 < length data)%nat as Hin.
    { pose proof (Nat.div_mod_eq (length data) 2).
      pose proof (Nat.mod_upper_bound (length data) 2). lia. }
    destruct (lookup_lt_is_Some_2 data (i * 2)) as [lo Hlo]; [lia |].
    destruct (lookup_lt_is_Some_2 data (i * 2 + 1)) as [hi Hhi]; [lia |].
    rewrite (Hnew i lo hi), (pair_samples_lookup data i lo hi); done || lia.
  - rewrite !lookup_ge_None_2; [done | |]; rewrite ?pair_samples_length; lia.
Qed.

Lemma pair_samples_app (d1 d2 : list Byte.byte) :
  Nat.Even (length d1) ->
  pair_samples (d1 ++ d2) = pair_samples d1 ++ pair_samples d2.
Proof.
  induction d1 as [| x | lo hi rest IH] using pair_ind; intros Heven.
  - reflexivity.
  - destruct Heven as [k Hk]. simpl in Hk. lia.
  - cbn [app pair_samples]. rewrite IH; [reflexivity |].
    destruct Heven as [k Hk]. simpl in Hk. exists (k - 1)%nat. lia.
Qed.

Lemma byte_val_inj (a b : Byte.byte) : byte_val a = byte_val b -> a = b.
Proof.
  unfold byte_val. intros Hab. apply N2Z.inj in Hab.
  assert (Some a = Some b) as [= ->]; [| reflexivity].
  rewrite <- (Byte.of_to_N a), <- (Byte.of_to_N b), Hab. reflexivity.
Qed.

Lemma sign_extend16_inj (lo hi lo' hi' : Byte.byte) :
  sign_extend16 lo hi = sign_extend16 lo' hi' -> lo = lo' /\ hi = hi'.
Proof.
  intros Heq. apply (f_equal (fun z => z mod 65536)) in Heq.
  rewrite !sign_extend16_bits in Heq.
  pose proof (byte_val_range lo). pose proof (byte_val_range hi).
  pose proof (byte_val_range lo'). pose proof (byte_val_range hi').
  split; apply byte_val_inj; lia.
Qed.

(** X1. Buffers can be cut anywhere between samples: converting two
    buffers one after the other gives the samples of the two buffers
    joined, as long as the first has an even number of bytes.  A last odd
    byte of a buffer is dropped: it gives no sample, and it is not kept
    for the next buffer. *)
Theorem conversion_of_joined_buffers (d1 d2 : list Byte.byte) :
  Nat.Even (length d1) ->
  (exists s1 s2,
     Record.to_intData d1 = Some s1 /\ Record.to_intData d2 = Some s2 /\
     Record.to_intData (d1 ++ d2) = Some (s1 ++ s2)) /\
  (forall b : Byte.byte,
     Record.to_intData (d1 ++ [b]) = Record.to_intData d1).
Proof.
  intros Heven. split.
  - exists (pair_samples d1), (pair_samples d2).
    rewrite !to_intData_pairs, pair_samples_app by exact Heven. done.
  - intros b. rewrite !to_intData_pairs, pair_samples_app by exact Heven.
    simpl. rewrite app_nil_r. reflexivity.
Qed.

Lemma conversion_of_joined_buffers_witness :
  Record.to_intData ([Byte.x01; Byte.x00] ++ [Byte.xff; Byte.xff; Byte.x02])
    = Some ([1] ++ [-1]) /\
  Record.to_intData ([Byte.x01; Byte.x00] ++ [Byte.x7f]) =
  Record.to_intData [Byte.x01; Byte.x00].
Proof.
  destruct (conversion_of_joined_buffers [Byte.x01; Byte.x00]
              [Byte.xff; Byte.xff; Byte.x02]) as [(s1 & s2 & H1 & H2 & H12) Hodd].
  - exists 1%nat. reflexivity.
  - split; [| apply Hodd].
    rewrite H12. simpl in H1, H2. injection H1 as <-. injection H2 as <-.
    reflexivity.
Defined.

(** X2. The conversion loses nothing of a buffer of whole samples: two
    buffers with an even number of bytes that give the same samples are
    the same bytes. *)
Theorem conversion_is_lossless (d1 d2 : list Byte.byte) :
  Nat.Even (length d1) -> Nat.Even (length d2) ->
  Record.to_intData d1 = Record.to_intData d2 -> d1 = d2.
Proof.
  rewrite !to_intData_pairs. intros H1 H2 [= Heq].
  revert d2 H1 H2 Heq.
  induction d1 as [| x | lo hi rest IH] using pair_ind; intros d2 H1 H2 Heq.
  - destruct d2 as [| a [| b d2]]; [done | | done].
    destruct H2 as [k Hk]. simpl in Hk. lia.
  - destruct H1 as [k Hk]. simpl in Hk. lia.
  - destruct d2 as [| a [| b d2]]; [done | |].
    + destruct H2 as [k Hk]. simpl in Hk. lia.
    + cbn [pair_samples] in Heq. injection Heq as Hs Hrest.
      apply sign_extend16_inj in Hs as [-> ->].
      f_equal. f_equal. apply IH; [| | exact Hrest].
      * destruct H1 as [k Hk]. simpl in Hk. exists (k - 1)%nat. lia.
      * destruct H2 as [k Hk]. simpl in Hk. exists (k - 1)%nat. lia.
Qed.

Lemma conversion_is_lossless_witness :
  [Byte.x34; Byte.x12] = [Byte.x34; Byte.x12].
Proof.
  apply (conversion_is_lossless [Byte.x34; Byte.x12] [Byte.x34; Byte.x12]).
  - exists 1%nat. reflexivity.
  - exists 1%nat. reflexivity.
  - reflexivity.
Defined.

(** ** The recorder: overflow, signals and the end of the loop *)

Lemma device_only_run W C o (frames : list (list Byte.byte)) :
  forall s : Record.state,
    Record.device_running s = true ->
    let s' := Record.run W C o s (map Record.HwData frames) in
    buf (Record.audioChan s') =
      buf (Record.audioChan s) ++
      take (cap (Record.audioChan s) - length (buf (Record.audioChan s))) frames /\
    Record.sigChan s' = Record.sigChan s /\
    Record.pc s' = Record.pc s /\ Record.log s' = Record.log s.
Proof.
  induction frames as [| f frames IH]; intros s Hrun; cbv zeta.
  - simpl. rewrite take_nil, app_nil_r. done.
  - destruct s as [ac sc ph lg].
    cbn [map Record.run fold_left Record.step]. rewrite Hrun, Data_spec.
    cbn [Record.audioChan Record.sigChan Record.pc Record.log].
    unfold full. case_bool_decide as Hfull.
    + specialize (IH (Record.State ac sc ph lg) Hrun). cbv zeta in IH.
      unfold Record.run in IH. destruct IH as (Hb & Hrest).
      split; [| exact Hrest]. rewrite Hb. simpl.
      replace (cap ac - length (buf ac))%nat with 0%nat by lia. reflexivity.
    + specialize (IH (Record.State (Chan (cap ac) (buf ac ++ [f]) (parked ac))
                                   sc ph lg) Hrun).
      cbv zeta in IH. unfold Record.run in IH. destruct IH as (Hb & Hrest).
      split; [| exact Hrest]. rewrite Hb. simpl. rewrite length_app. simpl.
      rewrite <- app_assoc. simpl.
      replace (cap ac - length (buf ac))%nat
        with (S (cap ac - (length (buf ac) + 1)))%nat by lia.
      reflexivity.
Qed.

(** X3. While the consumer does not run, the queue keeps the first 1024
    buffers the device delivers and drops every later one; nothing is
    written and nothing is printed. *)
Theorem idle_consumer_keeps_oldest_buffers W C o (frames : list (list Byte.byte)) :
  let s := Record.run W C o Record.entry (map Record.HwData frames) in
  buf (Record.audioChan s) = take 1024 frames /\
  Record.log s = [] /\
  Record.pc s = Record.Looping.
Proof.
  destruct (device_only_run W C o frames Record.entry eq_refl)
    as (Hb & _ & Hpc & Hlog).
  cbv zeta. rewrite Hb, Hpc, Hlog. done.
Qed.

Lemma signal_slot_step W C o (s : Record.state) (e : Record.event) :
  signal_slot s -> signal_slot (Record.step W C o s e).
Proof.
  intros (Hc & Hb & Hp). destruct e as [p | sig | pick]; simpl.
  - destruct (Record.device_running s); done.
  - unfold signal_slot, try_send, full. simpl.
    case_bool_decide as Hfull; simpl; [done |].
    rewrite length_app. simpl. repeat split; [done | lia | done].
  - unfold Record.main_step.
    destruct (Record.pc s); try done.
    unfold Record.select_turn, Record.on_stop, Record.on_frame.
    unfold recv at 1. rewrite Hp.
      destruct (buf (Record.sigChan s)) as [| x b] eqn:Hbuf;
        destruct (recv (Record.audioChan s)) as [[data ac] |];
        try destruct pick;
        try destruct (Record.to_intData data);
        try destruct (W _);
        unfold signal_slot; simpl; rewrite ?Hbuf, ?Hp;
        simpl in Hb; repeat split; try done; lia.
Qed.

Lemma signal_slot_run W C o (sched : list Record.event) :
  forall s : Record.state,
    signal_slot s -> signal_slot (Record.run W C o s sched).
Proof.
  induction sched as [| e sched IH]; intros s Hs; [exact Hs |].
  simpl. apply IH, signal_slot_step, Hs.
Qed.

Lemma unsignalled_run W C o (sched : list Record.event) :
  signalled sched \/
  (Record.sigChan (Record.run W C o Record.entry sched)
     = make Record.sigChan_cap /\
   Record.pc (Record.run W C o Record.entry sched) = Record.Looping).
Proof.
  induction sched as [| e sched IH] using rev_ind; [right; done |].
  destruct IH as [(sig & Hin) | (Hsig & Hpc)].
  { left. exists sig. apply in_or_app. left. exact Hin. }
  rewrite run_snoc.
  set (s := Record.run W C o Record.entry sched) in *.
  destruct e as [p | sig | pick].
  - right. simpl. destruct (Record.device_running s); done.
  - left. exists sig. apply in_or_app. right. left. reflexivity.
  - right. simpl. unfold Record.main_step. rewrite Hpc.
    unfold Record.select_turn. rewrite Hsig. simpl.
    destruct (recv (Record.audioChan s)) as [[data ac] |]; [| done].
    unfold Record.on_frame.
    destruct (to_intData_total data) as [w ->].
    destruct (W w); done.
Qed.

(** X4. Whatever the device delivers (empty buffers, buffers with an odd
    number of bytes) and whatever the encoder answers, the loop of the
    recorder does not panic, and it is left only after a signal has been
    delivered: a failing write does not end the recording.  The signal
    channel holds at most one signal and nothing ever blocks on it, so
    further signals while one is waiting are dropped. *)
Theorem recording_ends_only_on_a_signal W C o (sched : list Record.event) :
  let s := Record.run W C o Record.entry sched in
  Record.pc s <> Record.Crashed /\
  (Record.pc s <> Record.Looping -> signalled sched) /\
  (length (buf (Record.sigChan s)) <= 1)%nat /\
  parked (Record.sigChan s) = [].
Proof.
  cbv zeta. split; [| split].
  - destruct (relay_inv_run W C o sched)
      as (seen & idx & _ & _ & _ & _ & _ & _ & Hpc).
    exact Hpc.
  - intros Hout. destruct (unsignalled_run W C o sched) as [Hs | [_ Hpc]];
      [exact Hs | contradiction].
  - assert (signal_slot (Record.run W C o Record.entry sched)) as (_ & Hb & Hp).
    { apply signal_slot_run. unfold signal_slot. simpl. repeat split; lia. }
    done.
Qed.

Lemma recording_ends_only_on_a_signal_witness :
  signalled [Record.HwData [Byte.x01]; Record.OsSignal Record.SIGTERM;
             Record.OsSignal Record.Interrupt; Record.Main true].
Proof.
  apply (recording_ends_only_on_a_signal (fun _ => Some "disk full"%string)
           None "out.wav"%string
           [Record.HwData [Byte.x01]; Record.OsSignal Record.SIGTERM;
            Record.OsSignal Record.Interrupt; Record.Main true]).
  discriminate.
Defined.

Lemma stop_within_turns W C o (picks : list bool) :
  forall s : Record.state,
    Record.pc s <> Record.Crashed ->
    parked (Record.audioChan s) = [] ->
    (Record.pc s = Record.Looping -> recv (Record.sigChan s) <> None) ->
    (turns_left s <= length picks)%nat ->
    Record.pc (Record.run W C o s (map Record.Main picks)) = Record.Done.
Proof.
  induction picks as [| p picks IH]; intros s Hok Hp Hsig Hturns.
  - unfold turns_left in Hturns. simpl in *.
    destruct (Record.pc s); try done; lia.
  - cbn [map Record.run fold_left Record.step]. fold (Record.run W C o).
    unfold turns_left in Hturns. simpl in Hturns.
    unfold Record.main_step.
    destruct (Record.pc s) eqn:Hpc; try done.
    + specialize (Hsig eq_refl).
      destruct (recv (Record.sigChan s)) as [[sig sc] |] eqn:Hrecv; [| done].
      unfold Record.select_turn. rewrite Hrecv.
      assert (forall sc', Record.pc (Record.run W C o (Record.on_stop s sc')
                                       (map Record.Main picks)) = Record.Done)
        as Hstop.
      { intros sc'. apply IH; simpl; try done.
        unfold turns_left. simpl. lia. }
      unfold recv at 1. rewrite Hp.
      destruct (buf (Record.audioChan s)) as [| data rest] eqn:Hbuf;
        [apply Hstop |].
      destruct p; [apply Hstop |].
      unfold Record.on_frame.
      destruct (to_intData_total data) as [w ->].
      destruct (W w); apply IH; simpl; try done;
        try (intros _; rewrite Hrecv; done);
        unfold turns_left; simpl; simpl in Hturns; lia.
    + apply IH; simpl; try done. unfold turns_left. simpl. lia.
    + apply IH; unfold Record.finalize; destruct C; simpl; try done;
        unfold turns_left; simpl; lia.
    + apply IH; try done.
      * rewrite Hpc. discriminate.
      * rewrite Hpc. discriminate.
      * unfold turns_left. rewrite Hpc. simpl. lia.
Qed.

(** X5. A pending signal stops the recorder in a bounded number of turns
    of the main goroutine, whichever ready case each [select] picks: with
    [k] buffers queued, [k + 3] turns without new buffers end in the
    state where [runRecord] has returned. *)
Theorem pending_signal_stops_recorder W C o (s : Record.state)
    (picks : list bool) :
  Record.pc s = Record.Looping ->
  parked (Record.audioChan s) = [] ->
  recv (Record.sigChan s) <> None ->
  (length (buf (Record.audioChan s)) + 3 <= length picks)%nat ->
  Record.pc (Record.run W C o s (map Record.Main picks)) = Record.Done.
Proof.
  intros Hpc Hp Hsig Hlen. apply stop_within_turns; try done.
  - rewrite Hpc. discriminate.
  - unfold turns_left. rewrite Hpc. exact Hlen.
Qed.

Lemma pending_signal_stops_recorder_witness :
  Record.pc
    (Record.run (fun _ => None) None "out.wav"
       (Record.State (Chan 1024 [[Byte.x01; Byte.x00]; [Byte.x02; Byte.x00]] [])
                     (Chan 1 [Record.Interrupt] []) Record.Looping [])
       (map Record.Main [false; false; true; false; false])) = Record.Done.
Proof.
  apply pending_signal_stops_recorder.
  - reflexivity.
  - reflexivity.
  - discriminate.
  - simpl. lia.
Defined.

(** ** The player: what a message can and cannot do *)

Section PlayerFurther.
Context {Lib : Library}.
Import Player.

Ltac step_go :=
  unfold Update, View, bind, ret, poll_done, get_Paused, set_Paused,
    speaker_Lock, speaker_Unlock, Position, Len, note; simpl.

Lemma Update_fixed_fields (m : model) (msg : Msg) (h : heap) :
  let '(m', cmd, h') := Update m msg h in
  streamer_Position (audio h') = streamer_Position (audio h) /\
  streamer_Len (audio h') = streamer_Len (audio h) /\
  format_SampleRate (audio h') = format_SampleRate (audio h) /\
  duration (audio h') = duration (audio h) /\
  hw h' = hw h /\
  filename m' = filename m /\ err m' = err m /\
  (msg <> tickMsg -> done (audio h') = done (audio h) /\ pct m' = pct m).
Proof.
  destruct msg as [key | | f | w ht |]; step_go.
  - destruct (_ || _)%bool; [done |].
    destruct (String.eqb key " "); done.
  - destruct (recv (done (audio h))) as [[v c] |]; simpl; [done |].
    destruct (ctrl_Paused (audio h)); simpl; [done |].
    destruct (streamer_Len (audio h) >? 0);
      destruct (progress_SetPercent _ _); done.
  - destruct (progress_Update _ _). done.
  - done.
  - done.
Qed.

(** X6. [Update] only reads the stream: whatever the message, the
    position, the length, the format and the duration of the stream
    are as before, and so are the file name and the error of the model.
    Only a tick receives from [done] and only a tick changes [pct]. *)
Theorem Update_never_writes_the_stream (m : model) (msg : Msg) (h : heap) :
  streamer_Position (audio (snd (Update m msg h)))
    = streamer_Position (audio h) /\
  streamer_Len (audio (snd (Update m msg h))) = streamer_Len (audio h) /\
  format_SampleRate (audio (snd (Update m msg h)))
    = format_SampleRate (audio h) /\
  duration (audio (snd (Update m msg h))) = duration (audio h) /\
  filename (fst (fst (Update m msg h))) = filename m /\
  err (fst (fst (Update m msg h))) = err m /\
  (msg <> tickMsg ->
     done (audio (snd (Update m msg h))) = done (audio h) /\
     pct (fst (fst (Update m msg h))) = pct m).
Proof.
  pose proof (Update_fixed_fields m msg h) as Hf.
  destruct (Update m msg h) as [[m' cmd] h']. simpl. tauto.
Qed.


(** X8. A key other than space does nothing to the player: the model
    and the heap are as before, with no access to what is shared with the
    audio thread; the answer is [tea.Quit] exactly for [q], [ctrl+c] and
    [esc], and nil for every other key. *)
Theorem other_keys_are_ignored (m : model) (key : string) (h : heap) :
  key <> " "%string ->
  fst (fst (Update m (KeyMsg key) h)) = m /\
  snd (Update m (KeyMsg key) h) = h /\
  snd (fst (Update m (KeyMsg key) h)) =
    (if quit_key key then Quit else CmdNil).
Proof.
  intros Hkey. step_go. unfold quit_key.
  destruct (_ || _)%bool; [done |].
  destruct (String.eqb_spec key " "); done.
Qed.

Lemma int_wrap_in_range (z : Z) :
  - 2 ^ 63 <= z < 2 ^ 63 -> int_wrap z = z.
Proof.
  intros Hz. unfold int_wrap. rewrite Z.mod_small; lia.
Qed.

Lemma int_wrap_range (z : Z) : - 2 ^ 63 <= int_wrap z < 2 ^ 63.
Proof.
  unfold int_wrap.
  pose proof (Z.mod_pos_bound (z + 2 ^ 63) (2 ^ 64) eq_refl). lia.
Qed.

(** X9. A resize sets the width of the bar to the window width less 10,
    capped at 80, and changes nothing else.  There is no lower bound: a
    window narrower than 10 columns gives a negative width. *)
Theorem resize_caps_width_at_80 (m : model) (Width Height : Z) (h : heap) :
  exists w : Z,
    Update m (WindowSizeMsg Width Height) h =
      (with_progress m (progress_set_Width (progress m) w), CmdNil, h) /\
    w <= 80 /\
    (- 2 ^ 63 + 10 <= Width < 2 ^ 63 -> w = Z.min 80 (Width - 10)) /\
    (0 <= Width < 10 -> w < 0).
Proof.
  step_go.
  destruct (Z.gtb_spec (int_wrap (Width - 10)) 80) as [Hgt | Hle].
  - exists 80. split; [reflexivity |]. split; [lia |]. split.
    + intros Hw. rewrite int_wrap_in_range in Hgt by lia. lia.
    + intros Hw. rewrite int_wrap_in_range in Hgt by lia. lia.
  - exists (int_wrap (Width - 10)). split; [reflexivity |].
    split; [lia |]. split.
    + intros Hw. rewrite int_wrap_in_range in * by lia. lia.
    + intros Hw. rewrite int_wrap_in_range by lia. lia.
Qed.

Lemma play_keeps_err (ts : list turn) :
  forall (m : model) (h : heap),
    err (fst (play (m, h) ts)) = err m /\
    filename (fst (play (m, h) ts)) = filename m.
Proof.
  induction ts as [| t ts IH]; intros m h; [done |].
  unfold play. cbn [fold_left]. fold (play (play_turn (m, h) t) ts).
  destruct t as [msg | n]; cbn [play_turn fst snd].
  - pose proof (Update_fixed_fields m msg h) as Hf.
    destruct (Update m msg h) as [[m' cmd] h'].
    destruct Hf as (_ & _ & _ & _ & _ & Hname & Herr & _).
    destruct (IH m' h') as [-> ->]. done.
  - apply IH.
Qed.

(** X10. Nothing sets the error of the model: after any run from the
    model that [initialModel] returns the error is nil and the file name
    is the one given, so [View] never renders its error screen; it
    renders the player screen, for which it reads the position once and
    changes nothing of the stream. *)
Theorem error_screen_is_never_shown
    (fname : string) (env : environment) (m : model) (h : heap)
    (ts : list turn) :
  fst (initialModel fname env) = inl (m, h) ->
  let '(m', h') := play (m, h) ts in
  err m' = None /\ filename m' = fname /\
  (forall e, fst (View m' h') <> "Error: " +++ e +++ nl) /\
  audio (snd (View m' h')) = audio h' /\
  accesses (snd (View m' h')) = accesses h' ++ [ReadPosition].
Proof.
  intros Hinit.
  destruct (initialModel_success _ _ _ _ Hinit) as [Hm _].
  pose proof (play_keeps_err ts m h) as [Herr Hname].
  destruct (play (m, h) ts) as [m' h']. simpl in Herr, Hname.
  rewrite Hm in Herr, Hname. simpl in Herr, Hname.
  split; [exact Herr |]. split; [exact Hname |].
  unfold View. rewrite Herr. step_go.
  split; [| done]. intros e He. discriminate He.
Qed.

End PlayerFurther.

Section PlayerRuns.
Import Player.

Lemma Update_never_writes_the_stream_witness :
  pct (fst (fst (Update (Lib := plain_library) shown
                   (WindowSizeMsg 100 30) one_second_in))) = 0%float.
Proof.
  apply (Update_never_writes_the_stream (Lib := plain_library) shown
           (WindowSizeMsg 100 30) one_second_in).
  discriminate.
Defined.




Lemma other_keys_are_ignored_witness :
  snd (fst (Update (Lib := plain_library) shown (KeyMsg "esc") one_second_in))
    = Quit /\
  snd (Update (Lib := plain_library) shown (KeyMsg "x") one_second_in)
    = one_second_in.
Proof.
  split.
  - apply (other_keys_are_ignored (Lib := plain_library) shown "esc"
             one_second_in).
    discriminate.
  - apply (other_keys_are_ignored (Lib := plain_library) shown "x"
             one_second_in).
    discriminate.
Defined.


Lemma resize_caps_width_at_80_witness :
  exists w : Z,
    Update (Lib := plain_library) shown (WindowSizeMsg 6 24) one_second_in =
      (with_progress shown (progress_set_Width (progress shown) w),
       CmdNil, one_second_in) /\
    w = -4.
Proof.
  destruct (resize_caps_width_at_80 (Lib := plain_library) shown 6 24
              one_second_in) as (w & Hrun & _ & Hmin & _).
  exists w. split; [exact Hrun |].
  rewrite Hmin; [reflexivity | lia].
Defined.


Lemma error_screen_is_never_shown_witness :
  let '(m', h') :=
    play at_start [Deliver (KeyMsg " "); Deliver tickMsg; Hardware 4410] in
  err m' = None /\ filename m' = "a.wav"%string.
Proof.
  pose proof (error_screen_is_never_shown (Lib := plain_library)
                "a.wav"%string three_seconds (fst at_start) (snd at_start)
                [Deliver (KeyMsg " "); Deliver tickMsg; Hardware 4410]
                eq_refl) as Hrun.
  change (fst at_start, snd at_start) with at_start in Hrun.
  destruct (play at_start _) as [m' h'].
  destruct Hrun as (Herr & Hname & _). split; assumption.
Defined.

End PlayerRuns.

(** ** The command line and the end of the process *)

Lemma exit_codes_app (l l' : list effect) :
  exit_codes (l ++ l') = exit_codes l ++ exit_codes l'.
Proof. unfold exit_codes. apply flat_map_app. Qed.

Lemma step_keeps_running W C o (s : Record.state) (e : Record.event) :
  exit_codes (Record.log (Record.step W C o s e)) = exit_codes (Record.log s).
Proof.
  destruct e as [p | sig | pick]; simpl.
  - destruct (Record.device_running s); done.
  - done.
  - unfold Record.main_step, Record.select_turn, Record.on_stop,
      Record.on_frame, Record.finalize.
    destruct (Record.pc s); try done;
      try destruct (recv (Record.sigChan s)) as [[sig sc] |];
      try destruct (recv (Record.audioChan s)) as [[data ac] |];
      try destruct pick;
      try destruct (Record.to_intData data);
      try destruct (W _); try destruct C; simpl;
      rewrite ?exit_codes_app; simpl; rewrite ?app_nil_r; done.
Qed.

Lemma run_keeps_running W C o (sched : list Record.event) :
  forall s : Record.state,
    exit_codes (Record.log (Record.run W C o s sched))
    = exit_codes (Record.log s).
Proof.
  induction sched as [| e sched IH]; intros s; [done |].
  simpl. fold (Record.run W C o (Record.step W C o s e) sched).
  rewrite IH. apply step_keeps_running.
Qed.

Section CommandLine.
Context {Lib : Library}.
Import Player.

(** X11. [runPlayer] ends the process exactly once: with status 0 when
    opening, decoding, the speaker and the UI all went well, with status
    1 otherwise.  The UI is started exactly when start-up went well, and
    what was opened is released on every path: the file when decoding
    fails, the streamer after that. *)
Theorem runPlayer_exit_status (fname : string) (env : environment) :
  exit_codes (runPlayer fname env) =
    [match Open_err env, Decode_err env, SpeakerInit_err env, Run_err env with
     | None, None, None, None => 0
     | _, _, _, _ => 1
     end] /\
  (In StartUI (runPlayer fname env) <-> ~ player_startup_error env) /\
  (Open_err env = None ->
     match Decode_err env with
     | Some _ => In FileClose (runPlayer fname env)
     | None => In StreamerClose (runPlayer fname env)
     end).
Proof.
  unfold runPlayer, initialModel, player_startup_error.
  destruct (Open_err env) as [e1 |]; simpl.
  { split; [done |]. split; [| done].
    split; [intros [? | [? | []]]; discriminate | intros Hn; exfalso; apply Hn; left; done]. }
  destruct (Decode_err env) as [e2 |]; simpl.
  { split; [done |]. split; [| left; done].
    split; [intros [? | [? | [? | []]]]; discriminate
           | intros Hn; exfalso; apply Hn; right; left; done]. }
  destruct (SpeakerInit_err env) as [e3 |]; simpl.
  { split; [done |]. split; [| left; done].
    split; [intros [? | [? | [? | []]]]; discriminate
           | intros Hn; exfalso; apply Hn; right; right; done]. }
  destruct (Run_err env) as [e4 |]; simpl.
  - split; [done |]. split; [| right; left; done].
    split; [intros _ [? | [? | ?]]; done | intros _; left; done].
  - split; [done |]. split; [| right; left; done].
    split; [intros _ [? | [? | ?]]; done | intros _; left; done].
Qed.

(** X12. The command line.  With no argument the usage is printed and
    the status is 1; [-h], [--help] and [help] print the usage with
    status 0; [record] and [play] without an operand print two lines
    and end with status 1, and nothing is opened or started.  A first
    argument that is none of these five words is played as a file,
    exactly as [play] followed by it; arguments after the operand are
    not looked at. *)
Theorem command_line_dispatch (penv : environment) (renv : Record.startup)
    (W : list Z -> option string) (C : option string)
    (sched : list Record.event) :
  (forall args, (length args < 2)%nat ->
     main args penv renv W C sched = printUsage ++ [Exit 1]) /\
  (forall prog command rest,
     (command = "-h" \/ command = "--help" \/ command = "help")%string ->
     main (prog :: command :: rest) penv renv W C sched
     = printUsage ++ [Exit 0]) /\
  (forall prog command,
     (command = "record" \/ command = "play")%string ->
     exit_codes (main [prog; command] penv renv W C sched) = [1] /\
     Forall (fun e => is_Stdout e = true \/ e = Exit 1)
            (main [prog; command] penv renv W C sched)) /\
  (forall prog file rest,
     reserved file = false ->
     main (prog :: file :: rest) penv renv W C sched = runPlayer file penv /\
     main (prog :: "play"%string :: file :: rest) penv renv W C sched
     = runPlayer file penv).
Proof.
  split; [| split; [| split]].
  - intros [| a [| b args]] Hlen; simpl in *; [done | done | lia].
  - intros prog command rest [-> | [-> | ->]]; reflexivity.
  - intros prog command [-> | ->]; simpl;
      (split; [reflexivity |]);
      repeat (apply List.Forall_cons; [auto |]); apply List.Forall_nil.
  - intros prog file rest Hres. unfold reserved in Hres.
    apply orb_false_elim in Hres as [Hres Hhelp].
    apply orb_false_elim in Hres as [Hres Hlong].
    apply orb_false_elim in Hres as [Hres Hshort].
    apply orb_false_elim in Hres as [Hrec Hplay].
    split; [| reflexivity].
    unfold main. rewrite Hrec, Hplay, Hshort, Hlong, Hhelp. reflexivity.
Qed.

(** X13. The status of a recording.  [gowave record <file>] ends with
    status 2 when start-up fails, without starting the device or
    writing anything; once started it has no status while it records
    and ends with status 0 when it has been stopped, also when writes or
    the close of the encoder failed.  It never ends with status 1. *)
Theorem recording_exit_status (prog path : string) (rest : list string)
    (penv : environment) (renv : Record.startup)
    (W : list Z -> option string) (C : option string)
    (sched : list Record.event) :
  let out := main (prog :: "record"%string :: path :: rest)
                  penv renv W C sched in
  exit_codes out =
    match Record.InitContext_err renv, Record.InitDevice_err renv,
          Record.Create_err renv, Record.Start_err renv with
    | None, None, None, None =>
        match Record.pc (Record.run W C path Record.entry sched) with
        | Record.Done => [0]
        | _ => []
        end
    | _, _, _, _ => [2]
    end /\
  (recorder_startup_error renv ->
     ~ In DeviceStart out /\ Record.written out = []).
Proof.
  cbv zeta. unfold main. simpl.
  unfold Record.runRecord, Record.runRecord_startup, recorder_startup_error.
  destruct (Record.InitContext_err renv) as [e1 |]; simpl.
  { split; [done |]. intros _. split; [| done].
    intros [? | [? | []]]; discriminate. }
  destruct (Record.InitDevice_err renv) as [e2 |]; simpl.
  { split; [done |]. intros _. split; [| done].
    intros [? | [? | [? | []]]]; discriminate. }
  destruct (Record.Create_err renv) as [e3 |]; simpl.
  { split; [done |]. intros _. split; [| done].
    intros [? | [? | [? | []]]]; discriminate. }
  destruct (Record.Start_err renv) as [e4 |]; simpl.
  { split; [done |]. intros _. split; [| done].
    intros [? | [? | [? | [? | []]]]]; discriminate. }
  split; [| intros [? | [? | [? | ?]]]; done].
  pose proof (run_keeps_running W C path sched Record.entry) as Hlog.
  destruct (relay_inv_run W C path sched)
    as (seen & idx & _ & _ & _ & _ & _ & _ & Hok).
  simpl in Hlog.
  destruct (Record.pc (Record.run W C path Record.entry sched)) eqn:Hpc;
    try done; simpl; rewrite ?exit_codes_app, Hlog; reflexivity.
Qed.

End CommandLine.

Section CommandLineRuns.
Import Player.

Lemma runPlayer_exit_status_witness :
  In StreamerClose
    (runPlayer (Lib := plain_library) "a.wav"
       (Environment None None 132300 44100 (Some "no device"%string) None)).
Proof.
  apply (runPlayer_exit_status (Lib := plain_library) "a.wav"%string
           (Environment None None 132300 44100 (Some "no device"%string) None)).
  reflexivity.
Defined.

Lemma command_line_dispatch_witness :
  main (Lib := plain_library) ["gowave"; "a.wav"; "--loud"]%string
       three_seconds (Record.Startup None None None None)
       (fun _ => None) None []
  = runPlayer (Lib := plain_library) "a.wav" three_seconds /\
  main (Lib := plain_library) ["gowave"]%string
       three_seconds (Record.Startup None None None None)
       (fun _ => None) None []
  = printUsage ++ [Exit 1].
Proof.
  destruct (command_line_dispatch (Lib := plain_library) three_seconds
              (Record.Startup None None None None) (fun _ => None) None [])
    as (Hnone & _ & _ & Hfile).
  split.
  - apply (Hfile "gowave" "a.wav" ["--loud"])%string. reflexivity.
  - apply Hnone. simpl. lia.
Defined.

Lemma recording_exit_status_witness :
  let out :=
    main (Lib := plain_library) ["gowave"; "record"; "out.wav"]%string
         three_seconds
         (Record.Startup None (Some "no microphone"%string) None None)
         (fun _ => None) None [Record.HwData [Byte.x01; Byte.x00]] in
  ~ In DeviceStart out /\ Record.written out = [].
Proof.
  apply (recording_exit_status (Lib := plain_library) "gowave" "out.wav" []
           three_seconds
           (Record.Startup None (Some "no microphone"%string) None None)
           (fun _ => None) None [Record.HwData [Byte.x01; Byte.x00]]).
  right. left. discriminate.
Defined.

End CommandLineRuns.

(** ** The recorder: a consumer that keeps up, and what is released *)

Lemma kept_up_turn W C o (s : Record.state) (f : list Byte.byte) (p : bool) :
  Record.pc s = Record.Looping ->
  recv (Record.sigChan s) = None ->
  buf (Record.audioChan s) = [] ->
  parked (Record.audioChan s) = [] ->
  (0 < cap (Record.audioChan s))%nat ->
  Record.step W C o (Record.step W C o s (Record.HwData f)) (Record.Main p) =
  Record.State (Chan (cap (Record.audioChan s)) [] []) (Record.sigChan s)
    Record.Looping
    (match W (pair_samples f) with
     | Some e =>
         (Record.log s ++ [EncoderWrite (pair_samples f)]) ++
         [Stdout ("写入错误: " +++ e +++ nl)]
     | None => Record.log s ++ [EncoderWrite (pair_samples f)]
     end).
Proof.
  intros Hpc Hsig Hb Hp Hcap. destruct s as [ac sc ph lg]. simpl in *.
  subst ph. rewrite Data_spec. unfold full. rewrite Hb.
  rewrite bool_decide_false by (simpl; lia).
  unfold Record.main_step, Record.select_turn. simpl. rewrite Hsig.
  unfold recv. simpl. rewrite Hp.
  unfold Record.on_frame. rewrite to_intData_pairs. simpl.
  destruct (W (pair_samples f)); reflexivity.
Qed.

Lemma kept_up_run W C o (turns : list (list Byte.byte * bool)) :
  forall s : Record.state,
    Record.pc s = Record.Looping ->
    recv (Record.sigChan s) = None ->
    buf (Record.audioChan s) = [] ->
    parked (Record.audioChan s) = [] ->
    (0 < cap (Record.audioChan s))%nat ->
    let s' := Record.run W C o s (keeping_up turns) in
    Record.written (Record.log s') =
      Record.written (Record.log s) ++ map pair_samples (map fst turns) /\
    buf (Record.audioChan s') = [] /\
    Record.pc s' = Record.Looping.
Proof.
  induction turns as [| [f p] turns IH]; intros s Hpc Hsig Hb Hp Hcap;
    cbv zeta.
  - simpl. rewrite app_nil_r. done.
  - change (Record.run W C o s (keeping_up ((f, p) :: turns)))
      with (Record.run W C o
              (Record.step W C o (Record.step W C o s (Record.HwData f))
                                 (Record.Main p))
              (keeping_up turns)).
    rewrite (kept_up_turn W C o s f p Hpc Hsig Hb Hp Hcap).
    match goal with
    | |- context [Record.run W C o ?s1 _] =>
        destruct (IH s1 eq_refl Hsig eq_refl eq_refl Hcap) as (Hw & Hq & Hl)
    end.
    split; [| split; [exact Hq | exact Hl]].
    rewrite Hw. cbn [Record.log map fst].
    destruct (W (pair_samples f)); rewrite !written_app; simpl;
      rewrite ?app_nil_r, <- ?app_assoc; reflexivity.
Qed.

(** X14. When the consumer keeps up and no signal arrives, nothing is
    lost: every buffer the device delivers is handed to the encoder, in
    order and converted, also when writes fail; the queue is empty
    again after each turn. *)
Theorem keeping_up_loses_nothing W C o (turns : list (list Byte.byte * bool)) :
  let s := Record.run W C o Record.entry (keeping_up turns) in
  Forall2 (fun d w => Record.to_intData d = Some w)
          (map fst turns) (Record.written (Record.log s)) /\
  buf (Record.audioChan s) = [] /\
  Record.pc s = Record.Looping.
Proof.
  destruct (kept_up_run W C o turns Record.entry) as (Hw & Hq & Hpc);
    try done.
  { unfold Record.entry, Record.audioChan_cap. simpl. lia. }
  cbv zeta. split; [| done]. rewrite Hw. simpl.
  apply Forall2_fmap_r, Forall_Forall2_diag, Forall_forall.
  intros d _. apply to_intData_pairs.
Qed.

Lemma releases_app (l l' : list effect) :
  releases (l ++ l') = releases l ++ releases l'.
Proof.
  induction l as [| e l IH]; [reflexivity |].
  destruct e; simpl; rewrite ?IH; reflexivity.
Qed.

Lemma releases_step W C o (s : Record.state) (e : Record.event) :
  releases (Record.log s) =
    match Record.pc s with
    | Record.Looping | Record.LeftLoop | Record.Crashed => []
    | Record.DeviceStopped => [DeviceUninit]
    | Record.Done =>
        [DeviceUninit; EncoderClose; FileClose; ContextUninit]
    end ->
  releases (Record.log (Record.step W C o s e)) =
    match Record.pc (Record.step W C o s e) with
    | Record.Looping | Record.LeftLoop | Record.Crashed => []
    | Record.DeviceStopped => [DeviceUninit]
    | Record.Done =>
        [DeviceUninit; EncoderClose; FileClose; ContextUninit]
    end.
Proof.
  intros Hs. destruct e as [p | sig | pick]; simpl.
  - destruct (Record.device_running s); exact Hs.
  - exact Hs.
  - unfold Record.main_step, Record.select_turn, Record.on_stop,
      Record.on_frame, Record.finalize.
    destruct (Record.pc s) eqn:Hpc; rewrite ?Hpc; try exact Hs;
      try destruct (recv (Record.sigChan s)) as [[sig sc] |];
      try destruct (recv (Record.audioChan s)) as [[data ac] |];
      try destruct pick;
      try destruct (Record.to_intData data);
      try destruct (W _); try destruct C; simpl;
      rewrite ?Hpc, ?releases_app, ?Hs; simpl; rewrite ?Hs; done.
Qed.

(** X15. What the recorder releases, and when.  While it records it
    releases nothing.  A recorder that has finished has released, once
    each and in this order, the device, the encoder, the file and the
    audio context: the file is still open when the encoder is closed. *)
Theorem releases_in_order W C o (sched : list Record.event) :
  let s := Record.run W C o Record.entry sched in
  releases (Record.log s) =
    match Record.pc s with
    | Record.Looping | Record.LeftLoop | Record.Crashed => []
    | Record.DeviceStopped => [DeviceUninit]
    | Record.Done =>
        [DeviceUninit; EncoderClose; FileClose; ContextUninit]
    end.
Proof.
  cbv zeta. induction sched as [| e sched IH] using rev_ind; [reflexivity |].
  rewrite run_snoc. apply releases_step, IH.
Qed.
